(** * insilico_stimuli: parameter-space enumeration and stimulus formulas

    A shallow embedding of [insilico_stimuli/stimuli.py].

    Modelling conventions.
    - Python [int]s and numpy index integers are unbounded integers ([Z]);
      list lengths are [nat].
    - Python/numpy floats are modelled by the real numbers ([R]) with exact
      arithmetic.  Rounding, infinities and NaN are outside that model: a
      statement about pixel values over [R] is a statement about the
      formulas of the code evaluated exactly, and it covers divisors
      different from 0 only (division is total on [R], and is not in
      numpy).  Where rounding or a division by zero decides what the code
      returns, the lines concerned are transcribed a second time over IEEE
      754 binary64, one pixel at a time (module [B64]).
    - A raised exception is a value of [exn]; a method that may raise returns
      [result A = exn + A].
    - A numpy array of shape (h, w) is a list of h rows of w reals.
    - [np.unravel_index], [np.prod], [np.arange], [np.minimum] and the array
      reductions are library functions; they are modelled from numpy's
      documented behaviour. *)

From Stdlib Require Import Reals Lra Lia ZArith List String Bool.
From Stdlib Require PrimFloat.
Import ListNotations.

(** ** Exceptions and the error monad *)

Inductive exn : Type :=
| ValueError (msg : string)
    (* [raise ValueError(msg)] in stimuli.py *)
| IndexOutOfBounds (idx size : Z)
    (* numpy: ValueError, index idx is out of bounds for array with size *)
| ZeroSizeReduction
    (* numpy: ValueError, zero-size array to reduction operation *)
| ZeroDivisionError
| TypeError (msg : string)
| IndexError
| NotImplementedError.

Definition result (A : Type) : Type := (exn + A)%type.

Definition ret {A} (a : A) : result A := inr a.

Definition bind {A B} (m : result A) (f : A -> result B) : result B :=
  match m with
  | inl e => inl e
  | inr a => f a
  end.

Notation "x <- m ;; k" := (bind m (fun x => k))
  (at level 61, m at next level, right associativity).

Fixpoint mapM {A B} (f : A -> result B) (l : list A) : result (list B) :=
  match l with
  | [] => ret []
  | a :: l' => b <- f a ;; bs <- mapM f l' ;; ret (b :: bs)
  end.

Definition returns {A} (m : result A) : Prop := exists a, m = inr a.

(** ** numpy index helpers *)

Module Np.

Open Scope Z_scope.

(** [np.prod] of a list of integers. *)
Definition prod (l : list Z) : Z := fold_right Z.mul 1 l.

(** [range(a, b)]. *)
Definition range (a b : Z) : list Z :=
  map (fun k => a + Z.of_nat k) (seq 0 (Z.to_nat (b - a))).

(** [np.arange(0, stop, step)] on integers: ceil(stop / step) elements
    (none when that is negative); a zero step raises. *)
Definition arange_step (stop step : Z) : result (list Z) :=
  if step =? 0 then inl ZeroDivisionError
  else ret (map (fun k => Z.of_nat k * step)
                (seq 0 (Z.to_nat (- ((- stop) / step))))).

(** The digit loop of [unravel_index] in C order: the last dimension is
    peeled off first ([val % d], then [val /= d]).  [rshape] is the shape
    read from its last dimension, the result is the coordinates in the
    same (reversed) order. *)
Fixpoint unravel_rev (val : Z) (rshape : list Z) : list Z :=
  match rshape with
  | [] => []
  | d :: ds => (val mod d) :: unravel_rev (val / d) ds
  end.

Definition unravel_coords (val : Z) (shape : list Z) : list Z :=
  rev (unravel_rev val (rev shape)).

(** [np.unravel_index(idx, shape)]: a flat index outside
    [0, prod(shape)) is rejected before any digit is computed. *)
Definition unravel_index (idx : Z) (shape : list Z) : result (list Z) :=
  let size := prod shape in
  if (idx <? 0) || (size <=? idx)
  then inl (IndexOutOfBounds idx size)
  else ret (unravel_coords idx shape).

End Np.

(** Python list indexing [l[i]]: a negative index counts from the end. *)
Definition py_index {A} (l : list A) (i : Z) : result A :=
  let n := Z.of_nat (List.length l) in
  let j := if (i <? 0)%Z then (i + n)%Z else i in
  if ((j <? 0) || (n <=? j))%Z then inl IndexError
  else match nth_error l (Z.to_nat j) with
       | Some v => ret v
       | None => inl IndexError
       end.

(** ** Parameter values and descriptors *)

(** A parameter value is a location (a pair of pixel coordinates) or a
    number. *)
Inductive value : Type :=
| VLoc (x y : Z)
| VNum (r : R).

(** One entry of [params()]: (value list, name). *)
Definition descriptor : Type := (list value * string)%type.

(** A keyword dictionary, in insertion order; setting an existing key
    replaces its value. *)
Definition dict : Type := list (string * value).

Fixpoint dict_set (k : string) (v : value) (d : dict) : dict :=
  match d with
  | [] => [(k, v)]
  | (k', v') :: d' =>
      if String.eqb k k' then (k, v) :: d' else (k', v') :: dict_set k v d'
  end.

Fixpoint dict_get (k : string) (d : dict) : option value :=
  match d with
  | [] => None
  | (k', v') :: d' => if String.eqb k k' then Some v' else dict_get k d'
  end.

(** ** StimuliSet: the base-class methods over a descriptor list *)

Module StimuliSet.

(** [num_params]: [len(p[0]) for p in self.params()]. *)
Definition num_params (ps : list descriptor) : list Z :=
  map (fun p => Z.of_nat (List.length (fst p))) ps.

(** [p[0][c[i]] for i, p in enumerate(self.params())]. *)
Fixpoint select (ps : list descriptor) (c : list Z) : result (list value) :=
  match ps with
  | [] => ret []
  | p :: ps' =>
      match c with
      | [] => inl IndexError
      | ci :: c' =>
          v <- py_index (fst p) ci ;;
          vs <- select ps' c' ;;
          ret (v :: vs)
      end
  end.

(** [params_from_idx] of the base class. *)
Definition params_from_idx (ps : list descriptor) (idx : Z)
  : result (list value) :=
  c <- Np.unravel_index idx (num_params ps) ;;
  select ps c.

(** [{p[1]: params[i] for i, p in enumerate(self.params())}]. *)
Fixpoint make_dict (ps : list descriptor) (vals : list value) (acc : dict)
  : result dict :=
  match ps with
  | [] => ret acc
  | p :: ps' =>
      match vals with
      | [] => inl IndexError
      | v :: vals' => make_dict ps' vals' (dict_set (snd p) v acc)
      end
  end.

End StimuliSet.

(** ** Arrays *)

Definition array (A : Type) : Type := list (list A).
Definition image : Type := array R.

Fixpoint map2 {A B C} (f : A -> B -> C) (l1 : list A) (l2 : list B) : list C :=
  match l1, l2 with
  | a :: l1', b :: l2' => f a b :: map2 f l1' l2'
  | _, _ => []
  end.

(** Element-wise operations on arrays of one shape. *)
Definition arr_map {A B} (f : A -> B) (a : array A) : array B :=
  map (map f) a.

Definition arr_map2 {A B C} (f : A -> B -> C) (a : array A) (b : array B)
  : array C :=
  map2 (map2 f) a b.

(** [a[j][i]]: row j, column i. *)
Definition pixel {A} (a : array A) (i j : nat) : option A :=
  match nth_error a j with
  | Some row => nth_error row i
  | None => None
  end.

(** The array has h rows of w entries. *)
Definition arr_shape {A} (h w : nat) (a : array A) : Prop :=
  List.length a = h /\ Forall (fun row => List.length row = w) a.

(** [np.meshgrid(xs, ys)]: both outputs have shape (len ys, len xs). *)
Definition meshgrid {A} (xs ys : list A) : array A * array A :=
  (map (fun _ => xs) ys, map (fun y => map (fun _ => y) xs) ys).

(** [np.arange(n) - c] as reals. *)
Definition arange_minus (n : nat) (c : Z) : list R :=
  map (fun k => IZR (Z.of_nat k - c)) (seq 0 n).

(** [a.reshape((h, w))] of a flat array. *)
Fixpoint chunks {A} (h w : nat) (l : list A) : array A :=
  match h with
  | O => []
  | S h' => firstn w l :: chunks h' w (skipn w l)
  end.

Definition reshape {A} (h w : nat) (l : list A) : result (array A) :=
  if Nat.eqb (List.length l) (h * w) then ret (chunks h w l)
  else inl (ValueError "cannot reshape array").

(** [a.min()] and [a.max()] over all entries. *)
Definition arr_min (a : image) : result R :=
  match List.concat a with
  | [] => inl ZeroSizeReduction
  | v :: vs => ret (fold_left Rmin vs v)
  end.

Definition arr_max (a : image) : result R :=
  match List.concat a with
  | [] => inl ZeroSizeReduction
  | v :: vs => ret (fold_left Rmax vs v)
  end.

(** Comparisons of reals as booleans, and a boolean as a number. *)
Definition R_le_b (x y : R) : bool := if Rle_dec x y then true else false.
Definition R_gt_b (x y : R) : bool := if Rgt_dec x y then true else false.
Definition b2R (b : bool) : R := if b then 1%R else 0%R.

(** ** Attributes shared by the four classes *)

Record display : Type := Display {
  canvas_size : nat * nat;          (* [width, height] *)
  grey_level : R;
  pixel_boundaries : R * R          (* [lower, upper] *)
}.

(** [contrast * min(abs(pb[0] - grey), abs(pb[1] - grey))]. *)
Definition amplitude_of (d : display) (contrast : R) : R :=
  (contrast * Rmin (Rabs (fst (pixel_boundaries d) - grey_level d))
                   (Rabs (snd (pixel_boundaries d) - grey_level d)))%R.

(** The rotated frame: the rows of [R.dot(coords)] reshaped to the canvas. *)
Definition rotate (theta : R) (x y : image) : image * image :=
  (arr_map2 (fun a b => cos theta * a + (- sin theta) * b)%R x y,
   arr_map2 (fun a b => sin theta * a + cos theta * b)%R x y).

(** Constructor helpers. *)

(** [[x, y] for x in range(cr[0], cr[1]) for y in range(cr[2], cr[3])]. *)
Definition grid_locations (cr : Z * Z * Z * Z) : list (Z * Z) :=
  let '(x0, x1, y0, y1) := cr in
  flat_map (fun x => map (fun y => (x, y)) (Np.range y0 y1)) (Np.range x0 x1).

Definition init_locations (cr : Z * Z * Z * Z) (locations : option (list (Z * Z)))
  : list (Z * Z) :=
  match locations with
  | None => grid_locations cr
  | Some l => l
  end.

Definition init_pixel_boundaries (pb : option (R * R)) : R * R :=
  match pb with
  | None => ((-1)%R, 1%R)
  | Some b => b
  end.

(** A list is kept; an integer k becomes [np.arange(k) * span / k]. *)
Definition init_angles (span : R) (a : list R + Z) : list R :=
  match a with
  | inl l => l
  | inr k => map (fun i => IZR i * span / IZR k)%R (Np.range 0 k)
  end.

Definition init_gammas (eccentricities : option (list R)) : list R :=
  match eccentricities with
  | None => [1%R]
  | Some es => map (fun e => 1 - e ^ 2)%R es
  end.

Definition locs (l : list (Z * Z)) : list value :=
  map (fun p => VLoc (fst p) (snd p)) l.
Definition nums (l : list R) : list value := map VNum l.

(** Keyword-argument lookup when [stimulus] is called with a dictionary. *)
Definition arg_loc (kw : dict) (name : string) : result (Z * Z) :=
  match dict_get name kw with
  | Some (VLoc x y) => ret (x, y)
  | Some (VNum _) => inl (TypeError "location is not subscriptable")
  | None => inl (TypeError "missing required argument")
  end.

Definition arg_num (kw : dict) (name : string) : result R :=
  match dict_get name kw with
  | Some (VNum r) => ret r
  | Some (VLoc _ _) => inl (TypeError "unsupported operand type")
  | None => inl (TypeError "missing required argument")
  end.

(** ** GaborSet *)

Module GaborSet.

Record t : Type := Make {
  disp : display;
  locations : list (Z * Z);
  sizes : list R;
  spatial_frequencies : list R;
  contrasts : list R;
  orientations : list R;
  phases : list R;
  gammas : list R;
  relative_sf : bool
}.

(** [__init__]; [None] defaults are [option]s, [relative_sf] defaults to
    [True] at the call site. *)
Definition init (canvas : nat * nat) (center_range : Z * Z * Z * Z)
    (sizes spatial_frequencies contrasts : list R)
    (orientations phases : list R + Z) (grey : R)
    (pixel_bounds : option (R * R)) (eccentricities : option (list R))
    (locations : option (list (Z * Z))) (relative_sf : bool) : t :=
  Make (Display canvas grey (init_pixel_boundaries pixel_bounds))
       (init_locations center_range locations)
       sizes spatial_frequencies contrasts
       (init_angles PI orientations) (init_angles (2 * PI) phases)
       (init_gammas eccentricities) relative_sf.

Definition params (g : t) : list descriptor :=
  [ (locs (locations g), "location");
    (nums (sizes g), "size");
    (nums (spatial_frequencies g), "spatial_frequency");
    (nums (contrasts g), "contrast");
    (nums (orientations g), "orientation");
    (nums (phases g), "phase");
    (nums (gammas g), "gamma") ]%string.

(** [if self.relative_sf: params[2] /= params[1]]. *)
Definition rescale_sf (relative : bool) (ps : list value)
  : result (list value) :=
  if relative then
    match ps with
    | p0 :: VNum size :: VNum sf :: rest =>
        if Req_dec_T size 0 then inl ZeroDivisionError
        else ret (p0 :: VNum size :: VNum (sf / size) :: rest)
    | _ :: _ :: _ :: _ => inl (TypeError "unsupported operand type")
    | _ => inl IndexError
    end
  else ret ps.

(** The overriding [params_from_idx], over the descriptor list and the
    flag of the instance it runs on (PlaidsSet inherits it). *)
Definition params_from_idx_on (ps : list descriptor) (relative : bool)
    (idx : Z) : result (list value) :=
  vals <- StimuliSet.params_from_idx ps idx ;;
  rescale_sf relative vals.

Definition params_from_idx (g : t) (idx : Z) : result (list value) :=
  params_from_idx_on (params g) (relative_sf g) idx.

(** [stimulus]; it reads [canvas_size], [pixel_boundaries] and
    [grey_level] of the instance.  The envelope divides by
    [2 * (size/4)**2]: the formula is the code's for [size <> 0]; at
    [size = 0] numpy divides by zero (see [B64.envelope_exponent]). *)
Definition stimulus (d : display) (location : Z * Z)
    (size spatial_frequency contrast orientation phase gamma : R) : image :=
  let (x, y) := meshgrid (arange_minus (fst (canvas_size d)) (fst location))
                         (arange_minus (snd (canvas_size d)) (snd location)) in
  let (x, y) := rotate orientation x y in
  let envelope :=
    arr_map2 (fun a b => exp (- (a ^ 2 + gamma * b ^ 2) / (2 * (size / 4) ^ 2)))%R
             x y in
  let grating :=
    arr_map (fun a => cos (spatial_frequency * a * (2 * PI) + phase))%R x in
  let gabor_no_contrast := arr_map2 Rmult envelope grating in
  let amplitude := amplitude_of d contrast in
  arr_map (fun v => amplitude * v + grey_level d)%R gabor_no_contrast.

(** The named parameters of [stimulus]. *)
Definition arg_names : list string :=
  [ "location"; "size"; "spatial_frequency"; "contrast"; "orientation";
    "phase"; "gamma" ]%string.

(** [stimulus] called with a dictionary; keywords that are no parameter go
    to its [kwargs] and are not read. *)
Definition stimulus_kw (d : display) (kw : dict) : result image :=
  location <- arg_loc kw "location" ;;
  size <- arg_num kw "size" ;;
  spatial_frequency <- arg_num kw "spatial_frequency" ;;
  contrast <- arg_num kw "contrast" ;;
  orientation <- arg_num kw "orientation" ;;
  phase <- arg_num kw "phase" ;;
  gamma <- arg_num kw "gamma" ;;
  ret (stimulus d location size spatial_frequency contrast orientation
                phase gamma).

End GaborSet.

(** ** PlaidsSet *)

Module PlaidsSet.

Record t : Type := Make {
  disp : display;
  locations : list (Z * Z);
  sizes : list R;
  spatial_frequencies : list R;
  orientations : list R;
  phases : list R;
  gammas : list R;
  contrasts_preferred : list R;
  contrasts_orthogonal : list R;
  relative_sf : bool
}.

Definition init (canvas : nat * nat) (center_ranges : Z * Z * Z * Z)
    (sizes spatial_frequencies : list R)
    (orientations phases : list R + Z)
    (contrasts_preferred contrasts_orthogonal : list R) (grey : R)
    (pixel_bounds : option (R * R)) (eccentricities : option (list R))
    (locations : option (list (Z * Z))) (relative_sf : bool) : t :=
  Make (Display canvas grey (init_pixel_boundaries pixel_bounds))
       (init_locations center_ranges locations)
       sizes spatial_frequencies
       (init_angles PI orientations) (init_angles (2 * PI) phases)
       (init_gammas eccentricities)
       contrasts_preferred contrasts_orthogonal relative_sf.

Definition params (p : t) : list descriptor :=
  [ (locs (locations p), "location");
    (nums (sizes p), "size");
    (nums (spatial_frequencies p), "spatial_frequency");
    (nums (orientations p), "orientation");
    (nums (phases p), "phase");
    (nums (gammas p), "gamma");
    (nums (contrasts_preferred p), "contrast_preferred");
    (nums (contrasts_orthogonal p), "contrast_orthogonal") ]%string.

(** Inherited from GaborSet. *)
Definition params_from_idx (p : t) (idx : Z) : result (list value) :=
  GaborSet.params_from_idx_on (params p) (relative_sf p) idx.

(** Two calls of [super().stimulus] on the same instance, added. *)
Definition stimulus (d : display) (location : Z * Z)
    (size spatial_frequency orientation phase gamma
     contrast_preferred contrast_orthogonal : R) : image :=
  let gabor_preferred :=
    GaborSet.stimulus d location size spatial_frequency contrast_preferred
                      orientation phase gamma in
  let gabor_orthogonal :=
    GaborSet.stimulus d location size spatial_frequency contrast_orthogonal
                      (orientation + PI / 2)%R phase gamma in
  arr_map2 Rplus gabor_preferred gabor_orthogonal.

(** The named parameters of [stimulus]. *)
Definition arg_names : list string :=
  [ "location"; "size"; "spatial_frequency"; "orientation"; "phase"; "gamma";
    "contrast_preferred"; "contrast_orthogonal" ]%string.

(** What [kwargs] holds: the keywords of the call that are no parameter. *)
Definition kwargs (kw : dict) : dict :=
  filter (fun kv => negb (existsb (String.eqb (fst kv)) arg_names)) kw.

(** Both calls of [super().stimulus] name the seven Gabor parameters and
    pass [kwargs] on; a key of [kwargs] that is one of the seven is given
    twice. *)
Definition repeated_keyword (kw : dict) : bool :=
  existsb (fun kv => existsb (String.eqb (fst kv)) GaborSet.arg_names)
          (kwargs kw).

(** [stimulus] called with a dictionary: the parameters are bound, then the
    first [super().stimulus(..., **kwargs)] raises if a keyword is given
    twice; otherwise the two Gabors are computed and added. *)
Definition stimulus_kw (d : display) (kw : dict) : result image :=
  location <- arg_loc kw "location" ;;
  size <- arg_num kw "size" ;;
  spatial_frequency <- arg_num kw "spatial_frequency" ;;
  orientation <- arg_num kw "orientation" ;;
  phase <- arg_num kw "phase" ;;
  gamma <- arg_num kw "gamma" ;;
  contrast_preferred <- arg_num kw "contrast_preferred" ;;
  contrast_orthogonal <- arg_num kw "contrast_orthogonal" ;;
  if repeated_keyword kw
  then inl (TypeError "got multiple values for keyword argument")
  else ret (stimulus d location size spatial_frequency orientation phase
                     gamma contrast_preferred contrast_orthogonal).

End PlaidsSet.

(** ** DiffOfGaussians *)

Module DiffOfGaussians.

Record t : Type := Make {
  disp : display;
  locations : list (Z * Z);
  sizes : list R;
  sizes_scale_surround : list R;
  contrasts : list R;
  contrasts_scale_surround : list R
}.

Definition init (canvas : nat * nat) (center_range : Z * Z * Z * Z)
    (sizes sizes_scale_surround contrasts contrasts_scale_surround : list R)
    (grey : R) (pixel_bounds : option (R * R))
    (locations : option (list (Z * Z))) : t :=
  Make (Display canvas grey (init_pixel_boundaries pixel_bounds))
       (init_locations center_range locations)
       sizes sizes_scale_surround contrasts contrasts_scale_surround.

Definition params (d : t) : list descriptor :=
  [ (locs (locations d), "location");
    (nums (sizes d), "size");
    (nums (sizes_scale_surround d), "size_scale_surround");
    (nums (contrasts d), "contrast");
    (nums (contrasts_scale_surround d), "contrast_scale_surround") ]%string.

(** [gaussian_density(coords, mean, scale)].  It divides by
    [2 * scale**2]: the formula is the code's for [scale <> 0]; at
    [scale = 0] numpy divides by zero (see [B64.gaussian_exponent]). *)
Definition gaussian_density (coords : list (R * R)) (mean : Z * Z) (scale : R)
  : list R :=
  map (fun c =>
         let r2 := ((fst c - IZR (fst mean)) ^ 2
                    + (snd c - IZR (snd mean)) ^ 2)%R in
         exp (- r2 / (2 * scale ^ 2)))%R
      coords.

Definition domain_error : exn :=
  ValueError "size_surround must be larger than 1.".

Definition stimulus (d : display) (location : Z * Z)
    (size size_scale_surround contrast contrast_scale_surround : R)
  : result image :=
  if Rle_dec size_scale_surround 1 then inl domain_error
  else
    let w := fst (canvas_size d) in
    let h := snd (canvas_size d) in
    let (x, y) := meshgrid (arange_minus w 0) (arange_minus h 0) in
    let coords := combine (List.concat x) (List.concat y) in
    center <- reshape h w (gaussian_density coords location size) ;;
    surround <- reshape h w (gaussian_density coords location
                               (size_scale_surround * size)%R) ;;
    let center_surround :=
      arr_map2 (fun c s => c - contrast_scale_surround * s)%R
               center surround in
    min_val <- arr_min center_surround ;;
    max_val <- arr_max center_surround ;;
    let amplitude_current := Rmax (Rabs min_val) (Rabs max_val) in
    let amplitude_required := amplitude_of d contrast in
    let contrast_scaling := (amplitude_required / amplitude_current)%R in
    ret (arr_map (fun v => contrast_scaling * v + grey_level d)%R
                 center_surround).

Definition stimulus_kw (d : display) (kw : dict) : result image :=
  location <- arg_loc kw "location" ;;
  size <- arg_num kw "size" ;;
  size_scale_surround <- arg_num kw "size_scale_surround" ;;
  contrast <- arg_num kw "contrast" ;;
  contrast_scale_surround <- arg_num kw "contrast_scale_surround" ;;
  stimulus d location size size_scale_surround contrast
           contrast_scale_surround.

End DiffOfGaussians.

(** ** CenterSurround *)

Module CenterSurround.

Record t : Type := Make {
  disp : display;
  locations : list (Z * Z);
  sizes_total : list R;
  sizes_center : list R;
  sizes_surround : list R;
  contrasts_center : list R;
  contrasts_surround : list R;
  orientations_center : list R;
  orientations_surround : list R;
  spatial_frequencies : list R;
  phases_center : list R;
  phases_surround : list R;
  relative_sf : bool
}.

Definition init (canvas : nat * nat) (center_range : Z * Z * Z * Z)
    (sizes_total sizes_center sizes_surround : list R)
    (contrasts_center contrasts_surround : list R)
    (orientations_center orientations_surround : list R + Z)
    (spatial_frequencies : list R)
    (phases_center phases_surround : list R + Z) (grey : R)
    (pixel_bounds : option (R * R)) (locations : option (list (Z * Z)))
    (relative_sf : bool) : t :=
  Make (Display canvas grey (init_pixel_boundaries pixel_bounds))
       (init_locations center_range locations)
       sizes_total sizes_center sizes_surround
       contrasts_center contrasts_surround
       (init_angles PI orientations_center)
       (init_angles PI orientations_surround)
       spatial_frequencies
       (init_angles (2 * PI) phases_center)
       (init_angles (2 * PI) phases_surround)
       relative_sf.

Definition params (c : t) : list descriptor :=
  [ (locs (locations c), "location");
    (nums (sizes_total c), "size_total");
    (nums (sizes_center c), "size_center");
    (nums (sizes_surround c), "size_surround");
    (nums (contrasts_center c), "contrast_center");
    (nums (contrasts_surround c), "contrast_surround");
    (nums (orientations_center c), "orientation_center");
    (nums (orientations_surround c), "orientation_surround");
    (nums (spatial_frequencies c), "spatial_frequency");
    (nums (phases_center c), "phase_center");
    (nums (phases_surround c), "phase_surround") ]%string.

Definition domain_error : exn :=
  ValueError "size_center cannot be larger than size_surround".

(** The coordinate frame rotated by [theta] about [location]. *)
Definition frame (d : display) (location : Z * Z) (theta : R)
  : image * image :=
  let (x, y) := meshgrid (arange_minus (fst (canvas_size d)) (fst location))
                         (arange_minus (snd (canvas_size d)) (snd location)) in
  rotate theta x y.

(** [np.sqrt(x ** 2 + y ** 2)], exactly: over [R] the radius does not
    depend on the rotation of the frame.  In binary64 it does, by a
    rounding error (see [B64.norm_xy]). *)
Definition norm_xy (xy : image * image) : image :=
  arr_map2 (fun a b => sqrt (a ^ 2 + b ^ 2))%R (fst xy) (snd xy).

(** [norm_xy_center <= size_center * size_total]. *)
Definition envelope_center (d : display) (location : Z * Z)
    (size_total size_center orientation_center : R) : array bool :=
  let norm_xy_center := norm_xy (frame d location orientation_center) in
  arr_map (fun n => R_le_b n (size_center * size_total)%R) norm_xy_center.

(** [(norm_xy_surround > size_surround * size_total)
     * (norm_xy_surround <= size_total)]. *)
Definition envelope_surround (d : display) (location : Z * Z)
    (size_total size_surround orientation_surround : R) : array bool :=
  let norm_xy_surround := norm_xy (frame d location orientation_surround) in
  arr_map2 andb
    (arr_map (fun n => R_gt_b n (size_surround * size_total)%R) norm_xy_surround)
    (arr_map (fun n => R_le_b n size_total) norm_xy_surround).

Definition stimulus (d : display) (location : Z * Z)
    (size_total size_center size_surround contrast_center contrast_surround
     orientation_center orientation_surround spatial_frequency
     phase_center phase_surround : R) : result image :=
  if Rgt_dec size_center size_surround then inl domain_error
  else
    let x_center := fst (frame d location orientation_center) in
    let x_surround := fst (frame d location orientation_surround) in
    let env_center :=
      envelope_center d location size_total size_center orientation_center in
    let env_surround :=
      envelope_surround d location size_total size_surround
                        orientation_surround in
    let grating_center :=
      arr_map (fun a => cos (spatial_frequency * a * (2 * PI) + phase_center))%R
              x_center in
    let grating_surround :=
      arr_map (fun a => cos (spatial_frequency * a * (2 * PI) + phase_surround))%R
              x_surround in
    let amplitude_center := amplitude_of d contrast_center in
    let amplitude_surround := amplitude_of d contrast_surround in
    let grating_center_contrast :=
      arr_map (Rmult amplitude_center) grating_center in
    let grating_surround_contrast :=
      arr_map (Rmult amplitude_surround) grating_surround in
    ret (arr_map2 Rplus
           (arr_map2 (fun b v => b2R b * v)%R env_center grating_center_contrast)
           (arr_map2 (fun b v => b2R b * v)%R env_surround
                     grating_surround_contrast)).

Definition arg_names : list string :=
  [ "location"; "size_total"; "size_center"; "size_surround";
    "contrast_center"; "contrast_surround"; "orientation_center";
    "orientation_surround"; "spatial_frequency"; "phase_center";
    "phase_surround" ]%string.

(** This [stimulus] takes no extra keywords. *)
Definition stimulus_kw (d : display) (kw : dict) : result image :=
  if negb (forallb (fun kv => existsb (String.eqb (fst kv)) arg_names) kw)
  then inl (TypeError "unexpected keyword argument")
  else
    location <- arg_loc kw "location" ;;
    size_total <- arg_num kw "size_total" ;;
    size_center <- arg_num kw "size_center" ;;
    size_surround <- arg_num kw "size_surround" ;;
    contrast_center <- arg_num kw "contrast_center" ;;
    contrast_surround <- arg_num kw "contrast_surround" ;;
    orientation_center <- arg_num kw "orientation_center" ;;
    orientation_surround <- arg_num kw "orientation_surround" ;;
    spatial_frequency <- arg_num kw "spatial_frequency" ;;
    phase_center <- arg_num kw "phase_center" ;;
    phase_surround <- arg_num kw "phase_surround" ;;
    stimulus d location size_total size_center size_surround contrast_center
             contrast_surround orientation_center orientation_surround
             spatial_frequency phase_center phase_surround.

End CenterSurround.

(** ** The four synthesizers and method dispatch *)

Inductive synth : Type :=
| Gabor (g : GaborSet.t)
| Plaids (p : PlaidsSet.t)
| DoG (d : DiffOfGaussians.t)
| CS (c : CenterSurround.t).

Definition params (s : synth) : list descriptor :=
  match s with
  | Gabor g => GaborSet.params g
  | Plaids p => PlaidsSet.params p
  | DoG d => DiffOfGaussians.params d
  | CS c => CenterSurround.params c
  end.

Definition disp (s : synth) : display :=
  match s with
  | Gabor g => GaborSet.disp g
  | Plaids p => PlaidsSet.disp p
  | DoG d => DiffOfGaussians.disp d
  | CS c => CenterSurround.disp c
  end.

Definition num_params (s : synth) : list Z := StimuliSet.num_params (params s).

(** [np.prod(self.num_params())]. *)
Definition num_stims (s : synth) : Z := Np.prod (num_params s).

(** GaborSet overrides [params_from_idx] (PlaidsSet inherits the override);
    the other two classes use the base method. *)
Definition params_from_idx (s : synth) (idx : Z) : result (list value) :=
  match s with
  | Gabor g => GaborSet.params_from_idx g idx
  | Plaids p => PlaidsSet.params_from_idx p idx
  | DoG _ | CS _ => StimuliSet.params_from_idx (params s) idx
  end.


Definition params_dict_from_idx (s : synth) (idx : Z) : result dict :=
  vals <- params_from_idx s idx ;;
  StimuliSet.make_dict (params s) vals [].

Definition stimulus (s : synth) (kw : dict) : result image :=
  match s with
  | Gabor g => GaborSet.stimulus_kw (GaborSet.disp g) kw
  | Plaids p => PlaidsSet.stimulus_kw (PlaidsSet.disp p) kw
  | DoG d => DiffOfGaussians.stimulus_kw (DiffOfGaussians.disp d) kw
  | CS c => CenterSurround.stimulus_kw (CenterSurround.disp c) kw
  end.

Definition stimulus_from_idx (s : synth) (idx : Z) : result image :=
  kw <- params_dict_from_idx s idx ;;
  stimulus s kw.

(** A generator is the list of its steps; each step yields or raises. *)
Definition generator (A : Type) : Type := list (result A).

(** What a consumer receives: the values yielded before the first raise,
    and that exception if there was one. *)
Fixpoint consume {A} (g : generator A) : list A * option exn :=
  match g with
  | [] => ([], None)
  | inl e :: _ => ([], Some e)
  | inr a :: g' => let (ys, e) := consume g' in (a :: ys, e)
  end.

(** The number of entries of [np.arange(0, total, batch_size)]:
    ceil(total / batch_size). *)
Definition batch_count (total batch_size : Z) : nat :=
  Z.to_nat (- ((- total) / batch_size)).

(** The index range [batch_start, batch_end) of each loop iteration of
    [image_batches]. *)
Definition batch_ranges (total batch_size : Z) : result (list (Z * Z)) :=
  starts <- Np.arange_step total batch_size ;;
  ret (map (fun batch_start =>
              (batch_start, Z.min (batch_start + batch_size) total))
           starts).

Definition image_batches (s : synth) (batch_size : Z) : generator (list image) :=
  match batch_ranges (num_stims s) batch_size with
  | inl e => [inl e]
  | inr ranges =>
      map (fun be => mapM (stimulus_from_idx s) (Np.range (fst be) (snd be)))
          ranges
  end.

Definition images (s : synth) : result (list image) :=
  mapM (stimulus_from_idx s) (Np.range 0 (num_stims s)).

(** ** The enumeration order, as the specification words it *)

(** The Cartesian product of the value lists in row-major order: the first
    list varies slowest, the last fastest. *)
Fixpoint cartesian {A} (ls : list (list A)) : list (list A) :=
  match ls with
  | [] => [[]]
  | l :: ls' => flat_map (fun x => map (cons x) (cartesian ls')) l
  end.

(** All radices are positive. *)
Definition positive (l : list Z) : Prop := Forall (fun d => 0 < d)%Z l.

(** Mixed-radix digits read from the first radix: the leading digit is the
    quotient by the product of the remaining radices, the rest decomposes
    the remainder. *)
Fixpoint mixed_radix (idx : Z) (counts : list Z) : list Z :=
  match counts with
  | [] => []
  | _ :: ds => (idx / Np.prod ds)%Z :: mixed_radix (idx mod Np.prod ds)%Z ds
  end.

(** ** Sample configurations *)

(** One location, one value per list, [relative_sf=True]: a 3 x 1 canvas,
    total size 2, spatial frequency 1. *)
Definition center_surround_sample : CenterSurround.t :=
  CenterSurround.init (3, 1)%nat (0, 1, 0, 1)%Z [2%R] [1%R] [1%R] [1%R] [1%R]
    (inl [0%R]) (inl [0%R]) [1%R] (inl [0%R]) (inl [0%R]) 0%R None None true.


(** Two sizes, three contrasts. *)
Definition dog_sample : DiffOfGaussians.t :=
  DiffOfGaussians.init (2, 2)%nat (0, 1, 0, 1)%Z [1%R; 2%R] [2%R]
    [0%R; (1 / 2)%R; 1%R] [1%R] 0%R None None.


Definition gabor_sample : GaborSet.t :=
  GaborSet.init (3, 3)%nat (1, 2, 1, 2)%Z [4%R] [1%R] [1%R] (inl [0%R])
    (inl [0%R]) 0%R None None None true.

Definition plaids_sample : PlaidsSet.t :=
  PlaidsSet.init (3, 3)%nat (1, 2, 1, 2)%Z [4%R] [1%R] (inl [0%R]) (inl [0%R])
    [1%R] [(1 / 2)%R] 0%R None None None true.


(** ** Pixel-level reading of the array formulas

    The value each array expression takes at column [i], row [j]; the
    lemmas of the next part show that the arrays above hold these values. *)

Section PixelFormulas.

Open Scope R_scope.

Variable location : Z * Z.

Definition px_x (theta : R) (i j : nat) : R :=
  cos theta * IZR (Z.of_nat i - fst location)
  + - sin theta * IZR (Z.of_nat j - snd location).

Definition px_y (theta : R) (i j : nat) : R :=
  sin theta * IZR (Z.of_nat i - fst location)
  + cos theta * IZR (Z.of_nat j - snd location).

Definition px_envelope (size gamma theta : R) (i j : nat) : R :=
  exp (- (px_x theta i j ^ 2 + gamma * px_y theta i j ^ 2)
       / (2 * (size / 4) ^ 2)).

Definition px_grating (spatial_frequency phase theta : R) (i j : nat) : R :=
  cos (spatial_frequency * px_x theta i j * (2 * PI) + phase).

Definition px_gabor_no_contrast
    (size spatial_frequency theta phase gamma : R) (i j : nat) : R :=
  px_envelope size gamma theta i j
  * px_grating spatial_frequency phase theta i j.

Definition px_norm (theta : R) (i j : nat) : R :=
  sqrt (px_x theta i j ^ 2 + px_y theta i j ^ 2).

End PixelFormulas.

(** Inside the canvas of [d]. *)
Definition on_canvas (d : display) (i j : nat) : bool :=
  ((i <? fst (canvas_size d)) && (j <? snd (canvas_size d)))%nat.

(** ** The raw difference-of-Gaussians field *)

(** [center_surround = center - contrast_scale_surround * surround] of
    [DiffOfGaussians.stimulus], before the contrast is applied. *)
Definition center_surround (d : display) (location : Z * Z)
    (size size_scale_surround contrast_scale_surround : R) : result image :=
  let w := fst (canvas_size d) in
  let h := snd (canvas_size d) in
  let (x, y) := meshgrid (arange_minus w 0) (arange_minus h 0) in
  let coords := combine (List.concat x) (List.concat y) in
  center <- reshape h w
              (DiffOfGaussians.gaussian_density coords location size) ;;
  surround <- reshape h w
                (DiffOfGaussians.gaussian_density coords location
                   (size_scale_surround * size)%R) ;;
  ret (arr_map2 (fun c s => c - contrast_scale_surround * s)%R center surround).

(** ** Binary64 evaluation at single pixels

    The lines of the formulas where rounding or a division by zero decides
    the outcome, over IEEE 754 binary64 and for one pixel: each arithmetic
    operation of the source line is one rounded operation here, in the
    order Python evaluates them.  The entries [c = np.cos(theta)] and
    [s = np.sin(theta)] of the rotation matrix are inputs.  [np.exp] and
    [np.cos] of a pixel are taken only at the arguments where their result
    is the same for every library (zero and NaN).  A square [v ** 2] is the
    product [v * v]. *)

Module B64.

Import PrimFloat.
Local Open Scope float_scope.

(** [numpy.pi]. *)
Definition pi : float := 0x1.921fb54442d18p+1.

(** Python's [min(a, b)]: [b] if [b < a], else [a]. *)
Definition py_min (a b : float) : float := if b <? a then b else a.

(** [contrast * min(abs(pb[0] - grey), abs(pb[1] - grey))]. *)
Definition amplitude_of (low high grey contrast : float) : float :=
  contrast * py_min (abs (low - grey)) (abs (high - grey)).

(** One column of [R.dot(coords)] for [R = [[c, -s], [s, c]]] and the pixel
    at offset (dx, dy) from the location. *)
Definition rot_x (c s dx dy : float) : float := c * dx + (- s) * dy.
Definition rot_y (c s dx dy : float) : float := s * dx + c * dy.

(** The argument of [np.exp] in the Gabor envelope:
    [-(x ** 2 + gamma * y ** 2) / (2 * (size/4)**2)]. *)
Definition envelope_exponent (x y gamma size : float) : float :=
  - (x * x + gamma * (y * y)) / (2 * ((size / 4) * (size / 4))).

(** The argument of [np.exp] in [gaussian_density] for the point at offset
    (dx, dy) from the mean: [-r2 / (2 * scale**2)]. *)
Definition gaussian_exponent (dx dy scale : float) : float :=
  - (dx * dx + dy * dy) / (2 * (scale * scale)).

(** [np.exp] and [np.cos] where the result is the same for every library:
    NaN at NaN, 1 at zero. *)
Definition np_exp (x : float) : option float :=
  if is_nan x then Some nan else if x =? 0 then Some 1 else None.

Definition np_cos (x : float) : option float :=
  if is_nan x then Some nan else if x =? 0 then Some 1 else None.

(** One pixel of [GaborSet.stimulus]. *)
Definition gabor_pixel (low high grey c s dx dy
    size spatial_frequency contrast phase gamma : float) : option float :=
  let x := rot_x c s dx dy in
  let y := rot_y c s dx dy in
  match np_exp (envelope_exponent x y gamma size),
        np_cos (spatial_frequency * x * (2 * pi) + phase) with
  | Some envelope, Some grating =>
      let gabor_no_contrast := envelope * grating in
      let amplitude := amplitude_of low high grey contrast in
      Some (amplitude * gabor_no_contrast + grey)
  | _, _ => None
  end.

(** One pixel of [PlaidsSet.stimulus]; (c, s) belongs to [orientation] and
    (c', s') to [orientation + np.pi/2]. *)
Definition plaid_pixel (low high grey c s c' s' dx dy
    size spatial_frequency phase gamma
    contrast_preferred contrast_orthogonal : float) : option float :=
  match gabor_pixel low high grey c s dx dy size spatial_frequency
                    contrast_preferred phase gamma,
        gabor_pixel low high grey c' s' dx dy size spatial_frequency
                    contrast_orthogonal phase gamma with
  | Some gabor_preferred, Some gabor_orthogonal =>
      Some (gabor_preferred + gabor_orthogonal)
  | _, _ => None
  end.

(** [np.sqrt(x ** 2 + y ** 2)] of one pixel in the frame of (c, s). *)
Definition norm_xy (c s dx dy : float) : float :=
  let x := rot_x c s dx dy in
  let y := rot_y c s dx dy in
  sqrt (x * x + y * y).

(** [norm_xy_center <= size_center * size_total]. *)
Definition envelope_center (c s dx dy size_total size_center : float) : bool :=
  norm_xy c s dx dy <=? size_center * size_total.

(** [(norm_xy_surround > size_surround * size_total)
     * (norm_xy_surround <= size_total)]. *)
Definition envelope_surround (c s dx dy size_total size_surround : float)
  : bool :=
  (size_surround * size_total <? norm_xy c s dx dy)
  && (norm_xy c s dx dy <=? size_total).

(** [np.cos(np.pi/12)] and [np.sin(np.pi/12)]: the binary64 numbers
    nearest to the cosine and sine of the binary64 number [np.pi/12],
    0.9659258262890683 and 0.25881904510252074. *)
Definition cos_pi_12 : float := 0x1.ee8dd4748bf15p-1.
Definition sin_pi_12 : float := 0x1.0907dc1930690p-2.

(** [np.cos(np.pi/2)]: 6.123233995736766e-17 ([np.sin(np.pi/2)] is 1). *)
Definition cos_pi_2 : float := 0x1.1a62633145c07p-54.

End B64.

(** ** Proof steps *)

(** Take a [Forall2] over an explicit list apart, element by element. *)
Ltac split_Forall2 :=
  repeat match goal with
         | H : Forall2 _ _ (_ :: _) |- _ => inversion H; subst; clear H
         | H : Forall2 _ _ [] |- _ => inversion H; subst; clear H
         end.

(** * Properties *)

(** ** The error monad *)

Lemma bind_inr {A B} (m : result A) (f : A -> result B) (b : B) :
  bind m f = inr b -> exists a, m = inr a /\ f a = inr b.
Proof.
  destruct m as [e | a]; simpl; intros H; [discriminate | eauto].
Qed.

Lemma mapM_length {A B} (f : A -> result B) (l : list A) (bs : list B) :
  mapM f l = inr bs -> List.length bs = List.length l.
Proof.
  revert bs; induction l as [| a l IH]; simpl; intros bs H.
  - injection H as <-. reflexivity.
  - apply bind_inr in H as (b & _ & H).
    apply bind_inr in H as (bs' & Hbs & H).
    injection H as <-. simpl. f_equal. auto.
Qed.

Lemma mapM_Forall {A B} (P : B -> Prop) (f : A -> result B) (l : list A)
    (bs : list B) :
  (forall a b, In a l -> f a = inr b -> P b) ->
  mapM f l = inr bs -> Forall P bs.
Proof.
  revert bs; induction l as [| a l IH]; simpl; intros bs HP H.
  - injection H as <-. constructor.
  - apply bind_inr in H as (b & Hb & H).
    apply bind_inr in H as (bs' & Hbs & H).
    injection H as <-. constructor; eauto.
Qed.

(** ** Arrays *)

Lemma nth_error_map2 {A B C} (f : A -> B -> C) (l1 : list A) (l2 : list B)
    (n : nat) :
  nth_error (map2 f l1 l2) n =
  match nth_error l1 n, nth_error l2 n with
  | Some a, Some b => Some (f a b)
  | _, _ => None
  end.
Proof.
  revert l2 n; induction l1 as [| a l1 IH]; intros [| b l2] [| n]; simpl;
    try reflexivity.
  - destruct (nth_error l1 n); reflexivity.
  - apply IH.
Qed.

Lemma map2_length {A B C} (f : A -> B -> C) (l1 : list A) (l2 : list B) :
  List.length (map2 f l1 l2) = Nat.min (List.length l1) (List.length l2).
Proof.
  revert l2; induction l1 as [| a l1 IH]; intros [| b l2]; simpl; auto.
Qed.

Lemma pixel_arr_map {A B} (f : A -> B) (a : array A) (i j : nat) :
  pixel (arr_map f a) i j = option_map f (pixel a i j).
Proof.
  unfold pixel, arr_map. rewrite nth_error_map.
  destruct (nth_error a j) as [row |]; simpl; [apply nth_error_map | reflexivity].
Qed.

Lemma pixel_arr_map2 {A B C} (f : A -> B -> C) (a : array A) (b : array B)
    (i j : nat) :
  pixel (arr_map2 f a b) i j =
  match pixel a i j, pixel b i j with
  | Some u, Some v => Some (f u v)
  | _, _ => None
  end.
Proof.
  unfold pixel, arr_map2. rewrite nth_error_map2.
  destruct (nth_error a j) as [ra |], (nth_error b j) as [rb |]; simpl;
    try reflexivity.
  - apply nth_error_map2.
  - destruct (nth_error ra i); reflexivity.
Qed.

Lemma nth_error_seq0 (n k : nat) :
  nth_error (seq 0 n) k = if (k <? n)%nat then Some k else None.
Proof.
  destruct (Nat.ltb_spec k n) as [H | H].
  - rewrite (nth_error_nth' _ 0%nat) by (rewrite length_seq; exact H).
    rewrite seq_nth by exact H. reflexivity.
  - apply nth_error_None. rewrite length_seq. exact H.
Qed.

Lemma nth_error_arange_minus (n : nat) (c : Z) (k : nat) :
  nth_error (arange_minus n c) k =
  if (k <? n)%nat then Some (IZR (Z.of_nat k - c)) else None.
Proof.
  unfold arange_minus. rewrite nth_error_map, nth_error_seq0.
  destruct (k <? n)%nat; reflexivity.
Qed.

Lemma arange_minus_length (n : nat) (c : Z) :
  List.length (arange_minus n c) = n.
Proof. unfold arange_minus. rewrite length_map, length_seq. reflexivity. Qed.

Lemma pixel_meshgrid_x {A} (xs ys : list A) (i j : nat) :
  pixel (fst (meshgrid xs ys)) i j =
  if (j <? List.length ys)%nat then nth_error xs i else None.
Proof.
  unfold pixel, meshgrid; simpl. rewrite nth_error_map.
  destruct (Nat.ltb_spec j (List.length ys)) as [H | H].
  - destruct (nth_error ys j) eqn:E; simpl; [reflexivity |].
    apply nth_error_None in E. lia.
  - apply nth_error_None in H. rewrite H. reflexivity.
Qed.

Lemma pixel_meshgrid_y {A} (xs ys : list A) (i j : nat) :
  pixel (snd (meshgrid xs ys)) i j =
  if (i <? List.length xs)%nat then nth_error ys j else None.
Proof.
  unfold pixel, meshgrid; simpl. rewrite nth_error_map.
  destruct (nth_error ys j) as [y |] eqn:E; simpl.
  - rewrite nth_error_map.
    destruct (Nat.ltb_spec i (List.length xs)) as [H | H].
    + destruct (nth_error xs i) eqn:E'; simpl; [reflexivity |].
      apply nth_error_None in E'. lia.
    + apply nth_error_None in H. rewrite H. reflexivity.
  - destruct (i <? List.length xs)%nat; reflexivity.
Qed.

Lemma pixel_rotate_x (location : Z * Z) (w h : nat) (theta : R) (i j : nat) :
  pixel (fst (let (x, y) := meshgrid (arange_minus w (fst location))
                                     (arange_minus h (snd location)) in
              rotate theta x y)) i j =
  if ((i <? w) && (j <? h))%nat then Some (px_x location theta i j) else None.
Proof.
  unfold meshgrid, rotate; cbn [fst snd].
  rewrite pixel_arr_map2.
  pose proof (pixel_meshgrid_x (arange_minus w (fst location))
                (arange_minus h (snd location)) i j) as Hx.
  pose proof (pixel_meshgrid_y (arange_minus w (fst location))
                (arange_minus h (snd location)) i j) as Hy.
  unfold meshgrid in Hx, Hy; cbn [fst snd] in Hx, Hy. rewrite Hx, Hy.
  rewrite !arange_minus_length, !nth_error_arange_minus.
  destruct (i <? w)%nat, (j <? h)%nat; reflexivity.
Qed.

Lemma pixel_rotate_y (location : Z * Z) (w h : nat) (theta : R) (i j : nat) :
  pixel (snd (let (x, y) := meshgrid (arange_minus w (fst location))
                                     (arange_minus h (snd location)) in
              rotate theta x y)) i j =
  if ((i <? w) && (j <? h))%nat then Some (px_y location theta i j) else None.
Proof.
  unfold meshgrid, rotate; cbn [fst snd].
  rewrite pixel_arr_map2.
  pose proof (pixel_meshgrid_x (arange_minus w (fst location))
                (arange_minus h (snd location)) i j) as Hx.
  pose proof (pixel_meshgrid_y (arange_minus w (fst location))
                (arange_minus h (snd location)) i j) as Hy.
  unfold meshgrid in Hx, Hy; cbn [fst snd] in Hx, Hy. rewrite Hx, Hy.
  rewrite !arange_minus_length, !nth_error_arange_minus.
  destruct (i <? w)%nat, (j <? h)%nat; reflexivity.
Qed.

(** Every entry of a Gabor stimulus is
    [amplitude * envelope * grating + grey_level] at its pixel. *)
Lemma GaborSet_stimulus_pixel (d : display) (location : Z * Z)
    (size sf contrast theta phase gamma : R) (i j : nat) :
  pixel (GaborSet.stimulus d location size sf contrast theta phase gamma) i j =
  if on_canvas d i j
  then Some (amplitude_of d contrast
             * px_gabor_no_contrast location size sf theta phase gamma i j
             + grey_level d)%R
  else None.
Proof.
  unfold GaborSet.stimulus, on_canvas.
  pose proof (pixel_rotate_x location (fst (canvas_size d))
                (snd (canvas_size d)) theta i j) as Hx.
  pose proof (pixel_rotate_y location (fst (canvas_size d))
                (snd (canvas_size d)) theta i j) as Hy.
  destruct (meshgrid _ _) as [x y]. destruct (rotate theta x y) as [xr yr].
  cbn [fst snd] in Hx, Hy.
  rewrite pixel_arr_map, pixel_arr_map2, pixel_arr_map2, pixel_arr_map, Hx, Hy.
  destruct ((i <? _) && (j <? _))%nat; reflexivity.
Qed.

(** ** Gabor amplitude *)

Section GaborBounds.

Open Scope R_scope.

Lemma exp_le_1 (x : R) : x <= 0 -> exp x <= 1.
Proof.
  intros [H | ->].
  - left. rewrite <- exp_0. apply exp_increasing. exact H.
  - rewrite exp_0. apply Rle_refl.
Qed.

Lemma px_envelope_range (location : Z * Z) (size gamma theta : R) (i j : nat) :
  0 <= gamma -> size <> 0 ->
  0 < px_envelope location size gamma theta i j <= 1.
Proof.
  intros Hg Hs. unfold px_envelope. split; [apply exp_pos |].
  apply exp_le_1.
  set (x := px_x location theta i j). set (y := px_y location theta i j).
  assert (Hq : 0 <= x ^ 2 + gamma * y ^ 2).
  { assert (0 <= x ^ 2) by apply pow2_ge_0.
    assert (0 <= y ^ 2) by apply pow2_ge_0. nra. }
  assert (HD : 0 < 2 * (size / 4) ^ 2).
  { assert (size / 4 <> 0) by lra.
    assert (0 < (size / 4) ^ 2); [| lra].
    replace ((size / 4) ^ 2) with (Rsqr (size / 4)) by (unfold Rsqr; ring).
    apply Rsqr_pos_lt. assumption. }
  unfold Rdiv at 1. rewrite Ropp_mult_distr_l_reverse.
  apply Ropp_le_cancel. rewrite Ropp_involutive, Ropp_0.
  apply Rmult_le_pos; [exact Hq |]. left. apply Rinv_0_lt_compat. exact HD.
Qed.

Lemma px_gabor_no_contrast_bound (location : Z * Z)
    (size sf theta phase gamma : R) (i j : nat) :
  0 <= gamma -> size <> 0 ->
  -1 <= px_gabor_no_contrast location size sf theta phase gamma i j <= 1.
Proof.
  intros Hg Hs. unfold px_gabor_no_contrast.
  pose proof (px_envelope_range location size gamma theta i j Hg Hs)
    as [He0 He1].
  pose proof (COS_bound (sf * px_x location theta i j * (2 * PI) + phase))
    as [Hc0 Hc1].
  unfold px_grating. split; nra.
Qed.

Lemma amplitude_of_range (d : display) (contrast : R) :
  fst (pixel_boundaries d) <= grey_level d <= snd (pixel_boundaries d) ->
  0 <= contrast <= 1 ->
  0 <= amplitude_of d contrast
  /\ amplitude_of d contrast <= grey_level d - fst (pixel_boundaries d)
  /\ amplitude_of d contrast <= snd (pixel_boundaries d) - grey_level d.
Proof.
  intros [Hlo Hhi] [Hc0 Hc1]. unfold amplitude_of.
  set (lo := fst (pixel_boundaries d)) in *.
  set (hi := snd (pixel_boundaries d)) in *.
  set (g := grey_level d) in *.
  assert (Ha : Rabs (lo - g) = g - lo).
  { rewrite Rabs_left1 by lra. lra. }
  assert (Hb : Rabs (hi - g) = hi - g).
  { rewrite Rabs_right by lra. lra. }
  rewrite Ha, Hb.
  pose proof (Rmin_l (g - lo) (hi - g)).
  pose proof (Rmin_r (g - lo) (hi - g)).
  assert (0 <= Rmin (g - lo) (hi - g)) by (apply Rmin_glb; lra).
  repeat split; nra.
Qed.

End GaborBounds.

Section GaborClaims.

Open Scope R_scope.

(** C3 (amended).  In exact real arithmetic: for a Gabor stimulus whose
    grey level lies inside the pixel boundaries, with contrast in [0,1], a
    non-negative aspect ratio gamma and a non-zero size, every pixel of the
    output lies in [low, high]; and with contrast 1, grey level 0 and
    boundaries (-1, 1) the output is the envelope-grating product itself,
    of magnitude at most 1.  (What rounding and a size 0 do to the bound
    in binary64 is shown by [Gabor_binary64_peak_above_high] and
    [Gabor_binary64_nan_at_size_zero].) *)
Theorem Gabor_pixels_within_boundaries (d : display) (location : Z * Z)
    (size sf contrast theta phase gamma : R) (i j : nat) (v : R) :
  fst (pixel_boundaries d) <= grey_level d <= snd (pixel_boundaries d) ->
  0 <= contrast <= 1 ->
  0 <= gamma ->
  size <> 0 ->
  pixel (GaborSet.stimulus d location size sf contrast theta phase gamma) i j
    = Some v ->
  fst (pixel_boundaries d) <= v <= snd (pixel_boundaries d)
  /\ (contrast = 1 -> grey_level d = 0 -> pixel_boundaries d = (-1, 1) ->
      v = px_gabor_no_contrast location size sf theta phase gamma i j
      /\ Rabs v <= 1).
Proof.
  intros Hgrey Hc Hg Hs Hpx.
  rewrite GaborSet_stimulus_pixel in Hpx.
  destruct (on_canvas d i j); [| discriminate].
  injection Hpx as <-.
  pose proof (px_gabor_no_contrast_bound location size sf theta phase gamma
                i j Hg Hs)
    as Hb.
  set (p := px_gabor_no_contrast location size sf theta phase gamma i j) in *.
  split.
  - destruct (amplitude_of_range d contrast Hgrey Hc) as (Ha0 & Halo & Hahi).
    split; nra.
  - intros -> Hg0 Hpb. unfold amplitude_of. rewrite Hg0, Hpb; cbn [fst snd].
    replace (-1 - 0) with (- (1)) by ring. replace (1 - 0) with 1 by ring.
    rewrite Rabs_Ropp, Rabs_R1, Rmin_left by lra.
    replace (1 * 1 * p + 0) with p by ring.
    split; [reflexivity | apply Rabs_le; lra].
Qed.

Lemma Gabor_pixels_within_boundaries_witness :
  exists v : R,
    pixel (GaborSet.stimulus (Display (3, 3)%nat 0 (-1, 1)) (1, 1)%Z
                             4 (1 / 10) 1 0 0 1) 1 1 = Some v
    /\ -1 <= v <= 1.
Proof.
  eexists. split.
  - rewrite GaborSet_stimulus_pixel. reflexivity.
  - apply (@Gabor_pixels_within_boundaries
             (Display (3, 3)%nat 0 (-1, 1)) (1, 1)%Z 4 (1 / 10) 1 0 0 1
             1%nat 1%nat).
    + cbn [fst snd pixel_boundaries grey_level]. lra.
    + lra.
    + lra.
    + lra.
    + rewrite GaborSet_stimulus_pixel. reflexivity.
Defined.

(** C3 as stated fails: contrast in [0,1] alone does not keep the pixels
    inside the boundaries.  With grey level 2 and boundaries (-1, 1), even
    contrast 0 gives the pixel value 2. *)
Lemma Gabor_grey_outside_boundaries :
  ~ (forall (d : display) (location : Z * Z)
            (size sf contrast theta phase gamma : R) (i j : nat) (v : R),
        0 <= contrast <= 1 ->
        pixel (GaborSet.stimulus d location size sf contrast theta phase gamma)
              i j = Some v ->
        fst (pixel_boundaries d) <= v <= snd (pixel_boundaries d)).
Proof.
  intros H.
  specialize (H (Display (1, 1)%nat 2 (-1, 1)) (0, 0)%Z 1 1 0 0 0 1
                0%nat 0%nat 2).
  cbn [fst snd pixel_boundaries] in H.
  assert (Hr : -1 <= 2 <= 1); [| lra].
  apply H; [lra |].
  rewrite GaborSet_stimulus_pixel. cbn [on_canvas canvas_size fst snd Nat.ltb
    Nat.leb andb]. f_equal. unfold amplitude_of. cbn [grey_level]. ring.
Qed.

(** A negative aspect ratio lets the envelope grow above 1: with gamma = -1
    the pixel one row below the location is [exp (1/2)], above the upper
    boundary 1, at contrast 1. *)
Lemma Gabor_negative_gamma_exceeds :
  exists v : R,
    pixel (GaborSet.stimulus (Display (1, 1)%nat 0 (-1, 1)) (0, -1)%Z
                             4 1 1 0 0 (-1)) 0 0 = Some v
    /\ 1 < v.
Proof.
  eexists. split.
  - rewrite GaborSet_stimulus_pixel. reflexivity.
  - assert (Hx : px_x (0, -1)%Z 0 0 0 = 0).
    { unfold px_x. cbn [fst snd].
      change (Z.of_nat 0 - 0)%Z with 0%Z. change (Z.of_nat 0 - -1)%Z with 1%Z.
      rewrite cos_0, sin_0. ring. }
    assert (Hy : px_y (0, -1)%Z 0 0 0 = 1).
    { unfold px_y. cbn [fst snd].
      change (Z.of_nat 0 - 0)%Z with 0%Z. change (Z.of_nat 0 - -1)%Z with 1%Z.
      rewrite cos_0, sin_0. ring. }
    unfold px_gabor_no_contrast, px_envelope, px_grating, amplitude_of.
    cbn [fst snd pixel_boundaries grey_level]. rewrite Hx, Hy.
    replace (-1 - 0) with (- (1)) by ring. replace (1 - 0) with 1 by ring.
    rewrite Rabs_Ropp, Rabs_R1, Rmin_left by lra.
    replace (1 * 0 * (2 * PI) + 0) with 0 by ring. rewrite cos_0.
    replace (- (0 ^ 2 + -1 * 1 ^ 2) / (2 * (4 / 4) ^ 2)) with (1 / 2) by field.
    replace (1 * 1 * (exp (1 / 2) * 1) + 0) with (exp (1 / 2)) by ring.
    rewrite <- exp_0 at 1. apply exp_increasing. lra.
Qed.

(** Pixels of a plaid: the two Gabor pixels added. *)
Lemma PlaidsSet_stimulus_pixel (d : display) (location : Z * Z)
    (size sf theta phase gamma cp co : R) (i j : nat) :
  pixel (PlaidsSet.stimulus d location size sf theta phase gamma cp co) i j =
  if on_canvas d i j
  then Some ((amplitude_of d cp
              * px_gabor_no_contrast location size sf theta phase gamma i j
              + grey_level d)
             + (amplitude_of d co
                * px_gabor_no_contrast location size sf (theta + PI / 2)
                                       phase gamma i j
                + grey_level d))
  else None.
Proof.
  unfold PlaidsSet.stimulus.
  rewrite pixel_arr_map2, !GaborSet_stimulus_pixel.
  destruct (on_canvas d i j); reflexivity.
Qed.

(** C5.  The plaid stimulus is the pixel-wise sum of two Gabor stimuli
    computed by a Gabor synthesizer with the same canvas, grey level and
    pixel boundaries, from the same location, size, spatial frequency,
    phase and gamma: one with [orientation] and [contrast_preferred], one
    with [orientation + pi/2] and [contrast_orthogonal]. *)
Theorem Plaid_is_sum_of_two_Gabors (p : PlaidsSet.t) (g : GaborSet.t)
    (location : Z * Z)
    (size sf orientation phase gamma contrast_preferred contrast_orthogonal : R) :
  GaborSet.disp g = PlaidsSet.disp p ->
  let plaid :=
    PlaidsSet.stimulus (PlaidsSet.disp p) location size sf orientation phase
                       gamma contrast_preferred contrast_orthogonal in
  let gabor_preferred :=
    GaborSet.stimulus (GaborSet.disp g) location size sf contrast_preferred
                      orientation phase gamma in
  let gabor_orthogonal :=
    GaborSet.stimulus (GaborSet.disp g) location size sf contrast_orthogonal
                      (orientation + PI / 2) phase gamma in
  plaid = arr_map2 Rplus gabor_preferred gabor_orthogonal
  /\ forall i j : nat,
       pixel plaid i j =
       if on_canvas (PlaidsSet.disp p) i j
       then match pixel gabor_preferred i j, pixel gabor_orthogonal i j with
            | Some a, Some b => Some (a + b)
            | _, _ => None
            end
       else None.
Proof.
  intros Hd plaid gabor_preferred gabor_orthogonal.
  subst plaid gabor_preferred gabor_orthogonal. rewrite Hd. split.
  - reflexivity.
  - intros i j.
    rewrite PlaidsSet_stimulus_pixel, !GaborSet_stimulus_pixel.
    destruct (on_canvas (PlaidsSet.disp p) i j); reflexivity.
Qed.

(** C10 (amended).  For a non-zero size and in exact real arithmetic: each
    of the two Gabor calls adds the grey level, so a plaid pixel is the sum
    of the two amplitude-scaled envelope-grating terms plus twice the grey
    level; with both contrasts 0 every pixel is [2 * grey_level]. *)
Theorem Plaid_adds_grey_level_twice (d : display) (location : Z * Z)
    (size sf orientation phase gamma contrast_preferred contrast_orthogonal : R)
    (i j : nat) :
  size <> 0 ->
  pixel (PlaidsSet.stimulus d location size sf orientation phase gamma
                            contrast_preferred contrast_orthogonal) i j =
  (if on_canvas d i j
   then Some (amplitude_of d contrast_preferred
              * px_gabor_no_contrast location size sf orientation phase gamma i j
              + amplitude_of d contrast_orthogonal
                * px_gabor_no_contrast location size sf (orientation + PI / 2)
                                       phase gamma i j
              + 2 * grey_level d)
   else None)
  /\ pixel (PlaidsSet.stimulus d location size sf orientation phase gamma 0 0)
           i j =
     (if on_canvas d i j then Some (2 * grey_level d) else None).
Proof.
  intros _. rewrite !PlaidsSet_stimulus_pixel.
  destruct (on_canvas d i j); split; try reflexivity; f_equal;
    unfold amplitude_of; ring.
Qed.

Lemma Plaid_adds_grey_level_twice_witness :
  pixel (PlaidsSet.stimulus (Display (3, 3)%nat (1 / 2) (-1, 1)) (1, 1)%Z
                            4 1 0 0 1 0 0) 1 1
  = Some (2 * (1 / 2)).
Proof.
  apply (Plaid_adds_grey_level_twice (Display (3, 3)%nat (1 / 2) (-1, 1))
           (1, 1)%Z 4 1 0 0 1 0 0 1%nat 1%nat).
  lra.
Defined.

End GaborClaims.

(** ** CenterSurround masks *)

Section CenterSurroundMasks.

Open Scope R_scope.

Variable d : display.
Variable location : Z * Z.

Lemma pixel_frame_x (theta : R) (i j : nat) :
  pixel (fst (CenterSurround.frame d location theta)) i j =
  if on_canvas d i j then Some (px_x location theta i j) else None.
Proof. unfold CenterSurround.frame, on_canvas. apply pixel_rotate_x. Qed.

Lemma pixel_frame_y (theta : R) (i j : nat) :
  pixel (snd (CenterSurround.frame d location theta)) i j =
  if on_canvas d i j then Some (px_y location theta i j) else None.
Proof. unfold CenterSurround.frame, on_canvas. apply pixel_rotate_y. Qed.

Lemma pixel_norm_xy (theta : R) (i j : nat) :
  pixel (CenterSurround.norm_xy (CenterSurround.frame d location theta)) i j =
  if on_canvas d i j then Some (px_norm location theta i j) else None.
Proof.
  unfold CenterSurround.norm_xy.
  rewrite pixel_arr_map2, pixel_frame_x, pixel_frame_y.
  destruct (on_canvas d i j); reflexivity.
Qed.

Lemma pixel_envelope_center (size_total size_center theta : R) (i j : nat) :
  pixel (CenterSurround.envelope_center d location size_total size_center theta)
        i j =
  if on_canvas d i j
  then Some (R_le_b (px_norm location theta i j) (size_center * size_total))
  else None.
Proof.
  unfold CenterSurround.envelope_center.
  rewrite pixel_arr_map, pixel_norm_xy.
  destruct (on_canvas d i j); reflexivity.
Qed.

Lemma pixel_envelope_surround (size_total size_surround theta : R)
    (i j : nat) :
  pixel (CenterSurround.envelope_surround d location size_total size_surround
                                          theta) i j =
  if on_canvas d i j
  then Some (R_gt_b (px_norm location theta i j) (size_surround * size_total)
             && R_le_b (px_norm location theta i j) size_total)%bool
  else None.
Proof.
  unfold CenterSurround.envelope_surround.
  rewrite pixel_arr_map2, !pixel_arr_map, pixel_norm_xy.
  destruct (on_canvas d i j); reflexivity.
Qed.

(** A rotation keeps the distance to [location]. *)
Lemma px_norm_rotation_invariant (theta theta' : R) (i j : nat) :
  px_norm location theta i j = px_norm location theta' i j.
Proof.
  assert (H : forall t x y : R,
             (cos t * x + - sin t * y) ^ 2 + (sin t * x + cos t * y) ^ 2
             = x ^ 2 + y ^ 2).
  { intros t x y. pose proof (sin2_cos2 t) as Ht. unfold Rsqr in Ht.
    replace ((cos t * x + - sin t * y) ^ 2 + (sin t * x + cos t * y) ^ 2)
      with ((sin t * sin t + cos t * cos t) * (x ^ 2 + y ^ 2)) by ring.
    rewrite Ht. ring. }
  unfold px_norm, px_x, px_y. rewrite !H. reflexivity.
Qed.

Lemma px_norm_nonneg (theta : R) (i j : nat) : 0 <= px_norm location theta i j.
Proof. unfold px_norm. apply sqrt_pos. Qed.

Lemma R_le_b_true (x y : R) : R_le_b x y = true -> x <= y.
Proof. unfold R_le_b. destruct (Rle_dec x y); [auto | discriminate]. Qed.

Lemma R_gt_b_true (x y : R) : R_gt_b x y = true -> x > y.
Proof. unfold R_gt_b. destruct (Rgt_dec x y); [auto | discriminate]. Qed.

(** C6 (amended).  In exact real arithmetic, with
    [size_center <= size_surround] no pixel lies in both the center mask
    (radius <= size_center * size_total in the center frame) and the
    surround mask (radius > size_surround * size_total and <= size_total
    in the surround frame), whatever the two orientations. *)
Theorem CenterSurround_masks_disjoint
    (size_total size_center size_surround : R)
    (orientation_center orientation_surround : R) (i j : nat) :
  size_center <= size_surround ->
  ~ (pixel (CenterSurround.envelope_center d location size_total size_center
                                           orientation_center) i j = Some true
     /\ pixel (CenterSurround.envelope_surround d location size_total
                 size_surround orientation_surround) i j = Some true).
Proof.
  intros Hsz [Hc Hs].
  rewrite pixel_envelope_center in Hc. rewrite pixel_envelope_surround in Hs.
  destruct (on_canvas d i j); [| discriminate].
  injection Hc as Hc. injection Hs as Hs.
  apply andb_true_iff in Hs as [Hs1 Hs2].
  rewrite (px_norm_rotation_invariant orientation_center orientation_surround)
    in Hc.
  apply R_le_b_true in Hc, Hs2. apply R_gt_b_true in Hs1.
  pose proof (px_norm_nonneg orientation_surround i j) as Hn.
  set (n := px_norm location orientation_surround i j) in *.
  nra.
Qed.

Lemma pixel_CenterSurround_stimulus
    (size_total size_center size_surround contrast_center contrast_surround
     orientation_center orientation_surround sf phase_center phase_surround : R)
    (img : image) (i j : nat) :
  CenterSurround.stimulus d location size_total size_center size_surround
    contrast_center contrast_surround orientation_center orientation_surround
    sf phase_center phase_surround = inr img ->
  pixel img i j =
  match pixel (CenterSurround.envelope_center d location size_total
                 size_center orientation_center) i j,
        pixel (CenterSurround.envelope_surround d location size_total
                 size_surround orientation_surround) i j with
  | Some mc, Some ms =>
      Some (b2R mc * (amplitude_of d contrast_center
                      * cos (sf * px_x location orientation_center i j
                             * (2 * PI) + phase_center))
            + b2R ms * (amplitude_of d contrast_surround
                        * cos (sf * px_x location orientation_surround i j
                               * (2 * PI) + phase_surround)))
  | _, _ => None
  end.
Proof.
  unfold CenterSurround.stimulus.
  destruct (Rgt_dec size_center size_surround); [discriminate |].
  intros H. cbv zeta in H.
  remember (CenterSurround.frame d location orientation_center) as fc eqn:Efc.
  remember (CenterSurround.frame d location orientation_surround) as fs eqn:Efs.
  injection H as <-.
  rewrite !pixel_arr_map2, !pixel_arr_map. subst fc fs.
  rewrite !pixel_frame_x.
  rewrite pixel_envelope_center, pixel_envelope_surround.
  destruct (on_canvas d i j); reflexivity.
Qed.

(** C4.  For [size_center <= size_surround] the stimulus is
    [center mask * center grating + surround mask * surround grating] with
    no grey-level term, so a pixel outside both masks is exactly 0,
    whatever the grey level. *)
Theorem CenterSurround_zero_outside_masks
    (size_total size_center size_surround contrast_center contrast_surround
     orientation_center orientation_surround sf phase_center phase_surround : R) :
  size_center <= size_surround ->
  exists img : image,
    CenterSurround.stimulus d location size_total size_center size_surround
      contrast_center contrast_surround orientation_center
      orientation_surround sf phase_center phase_surround = inr img
    /\ forall i j : nat,
         on_canvas d i j = true ->
         exists mc ms : bool,
           pixel (CenterSurround.envelope_center d location size_total
                    size_center orientation_center) i j = Some mc
           /\ pixel (CenterSurround.envelope_surround d location size_total
                       size_surround orientation_surround) i j = Some ms
           /\ pixel img i j =
              Some (b2R mc * (amplitude_of d contrast_center
                              * cos (sf * px_x location orientation_center i j
                                     * (2 * PI) + phase_center))
                    + b2R ms * (amplitude_of d contrast_surround
                                * cos (sf * px_x location orientation_surround
                                                 i j
                                       * (2 * PI) + phase_surround)))
           /\ (mc = false -> ms = false -> pixel img i j = Some 0).
Proof.
  intros Hsz.
  destruct (CenterSurround.stimulus d location size_total size_center
              size_surround contrast_center contrast_surround
              orientation_center orientation_surround sf phase_center
              phase_surround) as [e | img] eqn:E.
  - unfold CenterSurround.stimulus in E.
    destruct (Rgt_dec size_center size_surround); [lra | discriminate].
  - exists img. split; [reflexivity |]. intros i j Hon.
    pose proof (pixel_CenterSurround_stimulus _ _ _ _ _ _ _ _ _ _ _ i j E)
      as Hpx.
    rewrite pixel_envelope_center, pixel_envelope_surround in *.
    rewrite Hon in *.
    eexists. eexists. split; [reflexivity |]. split; [reflexivity |].
    split; [exact Hpx |].
    intros Hmc Hms. rewrite Hpx, Hmc, Hms. cbn [b2R]. f_equal. ring.
Qed.

End CenterSurroundMasks.

(** ** Where binary64 departs from exact arithmetic *)

Section Binary64.

Import PrimFloat.
Local Open Scope float_scope.

(** The bound of C3 is a bound of the exact formula.  With boundaries
    (-4, 1), grey level -1.2 and contrast 1, all within the hypotheses of
    C3, the amplitude is the rounded 1 - (-1.2) = 2.2 and the pixel at the
    location (size 4, orientation 0, phase 0, gamma 1) is the rounded
    2.2 + (-1.2) = 1.0000000000000002, one unit in the last place above the
    upper boundary. *)
Lemma Gabor_binary64_peak_above_high :
  ((-4 <=? -0x1.3333333333333p+0) && (-0x1.3333333333333p+0 <=? 1) = true)%bool
  /\ B64.gabor_pixel (-4) 1 (-0x1.3333333333333p+0) 1 0 0 0 4 1 1 0 1
     = Some 0x1.0000000000001p+0
  /\ (1 <? 0x1.0000000000001p+0) = true.
Proof. repeat split; reflexivity. Qed.

(** At size 0 the envelope exponent of the pixel at the location is
    0 / 0: the pixel is NaN, inside no boundaries. *)
Lemma Gabor_binary64_nan_at_size_zero :
  B64.envelope_exponent 0 0 1 0 = nan
  /\ B64.gabor_pixel (-1) 1 0 1 0 0 0 0 1 1 0 1 = Some nan
  /\ (-1 <=? nan) = false
  /\ (nan <=? 1) = false.
Proof. repeat split; reflexivity. Qed.

(** The same division in the difference of Gaussians: at size 0 the
    exponent of the pixel at the location is 0 / 0. *)
Lemma DiffOfGaussians_binary64_nan_at_size_zero :
  B64.gaussian_exponent 0 0 0 = nan /\ B64.np_exp nan = Some nan.
Proof. split; reflexivity. Qed.

(** C10 as stated fails at size 0: with both contrasts 0, grey level 0.5
    and boundaries (-1, 1) the pixel at the location is NaN, not
    [2 * grey_level = 1]. *)
Lemma Plaid_size_zero_not_twice_grey :
  B64.plaid_pixel (-1) 1 0.5 1 0 B64.cos_pi_2 1 0 0 0 1 0 1 0 0 = Some nan
  /\ (nan =? 2 * 0.5) = false.
Proof. split; reflexivity. Qed.

(** C6 as stated fails in binary64.  Total size 6 with
    [size_center = size_surround = 0.5], center orientation 0, surround
    orientation pi/12, the pixel three columns right of the location: its
    radius is 3 in the center frame and 3.0000000000000004 in the surround
    frame, the threshold of both masks is 3, and the pixel lies in both. *)
Lemma CenterSurround_masks_overlap_in_binary64 :
  (0.5 <=? 0.5) = true
  /\ B64.norm_xy 1 0 3 0 = 3
  /\ B64.norm_xy B64.cos_pi_12 B64.sin_pi_12 3 0 = 0x1.8000000000001p+1
  /\ 0.5 * 6 = 3
  /\ B64.envelope_center 1 0 3 0 6 0.5 = true
  /\ B64.envelope_surround B64.cos_pi_12 B64.sin_pi_12 3 0 6 0.5 = true.
Proof. repeat split; reflexivity. Qed.

End Binary64.

(** ** Domain validation *)

Section DomainValidation.

Open Scope R_scope.

Lemma meshgrid_x_size {A} (xs ys : list A) :
  List.length (List.concat (fst (meshgrid xs ys)))
  = (List.length ys * List.length xs)%nat.
Proof.
  unfold meshgrid; cbn [fst]. induction ys as [| y ys IH]; simpl.
  - reflexivity.
  - rewrite length_app, IH. reflexivity.
Qed.

Lemma meshgrid_y_size {A} (xs ys : list A) :
  List.length (List.concat (snd (meshgrid xs ys)))
  = (List.length ys * List.length xs)%nat.
Proof.
  unfold meshgrid; cbn [snd]. induction ys as [| y ys IH]; simpl.
  - reflexivity.
  - rewrite length_app, length_map, IH. reflexivity.
Qed.

Lemma reshape_ok {A} (h w : nat) (l : list A) :
  List.length l = (h * w)%nat -> reshape h w l = inr (chunks h w l).
Proof.
  intros H. unfold reshape. rewrite H, Nat.eqb_refl. reflexivity.
Qed.

(** Two flat arrays of (h+1)*(w+1) entries, reshaped and combined
    entry-wise, have a first entry. *)
Lemma chunks_map2_nonempty {A B C} (f : A -> B -> C) (h w : nat)
    (l1 : list A) (l2 : list B) :
  List.length l1 = (S h * S w)%nat -> List.length l2 = (S h * S w)%nat ->
  exists v vs,
    List.concat (arr_map2 f (chunks (S h) (S w) l1) (chunks (S h) (S w) l2))
    = v :: vs.
Proof.
  intros H1 H2.
  destruct l1 as [| a l1]; [simpl in H1; discriminate |].
  destruct l2 as [| b l2]; [simpl in H2; discriminate |].
  simpl. eauto.
Qed.

Lemma DiffOfGaussians_returns (w h : nat) (grey : R) (pb : R * R)
    (location : Z * Z) (size sss contrast csc : R) :
  1 < sss ->
  returns (DiffOfGaussians.stimulus (Display (S w, S h) grey pb) location size
                                    sss contrast csc).
Proof.
  intros Hs. unfold DiffOfGaussians.stimulus.
  destruct (Rle_dec sss 1) as [Hle | _]; [lra |].
  cbn [canvas_size fst snd].
  pose proof (meshgrid_x_size (arange_minus (S w) 0) (arange_minus (S h) 0))
    as Hx.
  pose proof (meshgrid_y_size (arange_minus (S w) 0) (arange_minus (S h) 0))
    as Hy.
  rewrite !arange_minus_length in Hx, Hy.
  destruct (meshgrid (arange_minus (S w) 0) (arange_minus (S h) 0)) as [x y].
  cbn [fst snd] in Hx, Hy.
  assert (Hc : List.length (combine (List.concat x) (List.concat y))
               = (S h * S w)%nat).
  { rewrite length_combine, Hx, Hy. apply Nat.min_id. }
  set (coords := combine (List.concat x) (List.concat y)) in *.
  assert (Hd : forall s, List.length
                           (DiffOfGaussians.gaussian_density coords location s)
                         = (S h * S w)%nat).
  { intros s. unfold DiffOfGaussians.gaussian_density.
    rewrite length_map. exact Hc. }
  rewrite !reshape_ok by apply Hd. cbn [bind].
  destruct (chunks_map2_nonempty (fun c s => c - csc * s) h w _ _
              (Hd size) (Hd (sss * size))) as (v & vs & Hv).
  unfold arr_min, arr_max. rewrite Hv. cbn [bind ret].
  eexists. reflexivity.
Qed.

Lemma CenterSurround_returns (d : display) (location : Z * Z)
    (st sc ss cc cs oc os sf pc ps : R) :
  sc <= ss ->
  returns (CenterSurround.stimulus d location st sc ss cc cs oc os sf pc ps).
Proof.
  intros Hle. unfold CenterSurround.stimulus, returns.
  destruct (Rgt_dec sc ss) as [Hgt | _]; [lra | eexists; reflexivity].
Qed.

(** C7.  [DiffOfGaussians.stimulus] raises its domain error exactly when
    [size_scale_surround <= 1], and returns an image on a non-empty canvas
    otherwise (in particular for [size_scale_surround = 2]);
    [CenterSurround.stimulus] raises its domain error exactly when
    [size_center > size_surround] and returns an image otherwise.  The
    check comes first: the error does not depend on the canvas, the
    location or any other argument, also where the pixel computation would
    itself fail (an empty canvas). *)
Theorem domain_validation_iff :
  (forall (d : display) (location : Z * Z) (size sss contrast csc : R),
      DiffOfGaussians.stimulus d location size sss contrast csc
        = inl DiffOfGaussians.domain_error
      <-> sss <= 1)
  /\ (forall (w h : nat) (grey : R) (pb : R * R) (location : Z * Z)
             (size sss contrast csc : R),
         returns (DiffOfGaussians.stimulus (Display (S w, S h) grey pb)
                    location size sss contrast csc)
         <-> 1 < sss)
  /\ (forall (w h : nat) (grey : R) (pb : R * R) (location : Z * Z)
             (size contrast csc : R),
         returns (DiffOfGaussians.stimulus (Display (S w, S h) grey pb)
                    location size 2 contrast csc))
  /\ (forall (d : display) (location : Z * Z)
             (st sc ss cc cs oc os sf pc ps : R),
         CenterSurround.stimulus d location st sc ss cc cs oc os sf pc ps
           = inl CenterSurround.domain_error
         <-> sc > ss)
  /\ (forall (d : display) (location : Z * Z)
             (st sc ss cc cs oc os sf pc ps : R),
         returns (CenterSurround.stimulus d location st sc ss cc cs oc os sf
                                          pc ps)
         <-> sc <= ss).
Proof.
  split; [| split; [| split; [| split]]].
  - intros d location size sss contrast csc.
    unfold DiffOfGaussians.stimulus.
    destruct (Rle_dec sss 1) as [Hle | Hgt]; [tauto |].
    split; [| intros; contradiction].
    intros H. exfalso.
    destruct (meshgrid _ _) as [x y].
    unfold reshape in H.
    repeat match type of H with
           | context [if ?b then _ else _] => destruct b
           end; cbn [bind ret] in H; try discriminate.
    unfold arr_min, arr_max in H.
    destruct (List.concat _); cbn [bind ret] in H; discriminate.
  - intros w h grey pb location size sss contrast csc. split.
    + intros [img H]. unfold DiffOfGaussians.stimulus in H.
      destruct (Rle_dec sss 1); [discriminate | lra].
    + apply DiffOfGaussians_returns.
  - intros. apply DiffOfGaussians_returns. lra.
  - intros d location st sc ss cc cs oc os sf pc ps.
    unfold CenterSurround.stimulus.
    destruct (Rgt_dec sc ss) as [Hgt | Hle]; [tauto |].
    split; [discriminate | intros; contradiction].
  - intros d location st sc ss cc cs oc os sf pc ps.
    split; [| apply CenterSurround_returns].
    intros [img H]. unfold CenterSurround.stimulus in H.
    destruct (Rgt_dec sc ss) as [Hgt | Hle]; [discriminate | lra].
Qed.

End DomainValidation.

(** ** Index range *)

Lemma prod_nonneg (l : list Z) :
  Forall (fun d => 0 <= d)%Z l -> (0 <= Np.prod l)%Z.
Proof.
  induction 1 as [| d l Hd _ IH]; simpl; [lia | nia].
Qed.

Lemma num_params_nonneg (ps : list descriptor) :
  Forall (fun d => 0 <= d)%Z (StimuliSet.num_params ps).
Proof.
  unfold StimuliSet.num_params. apply Forall_map, Forall_forall.
  intros p _. lia.
Qed.

Lemma num_stims_nonneg (s : synth) : (0 <= num_stims s)%Z.
Proof. apply prod_nonneg, num_params_nonneg. Qed.

Lemma unravel_index_out_of_range (idx : Z) (shape : list Z) :
  (idx < 0 \/ Np.prod shape <= idx)%Z ->
  Np.unravel_index idx shape = inl (IndexOutOfBounds idx (Np.prod shape)).
Proof.
  intros H. unfold Np.unravel_index.
  destruct ((idx <? 0)%Z || (Np.prod shape <=? idx)%Z) eqn:E; [reflexivity |].
  apply orb_false_iff in E as [E1 E2]. lia.
Qed.

Lemma unravel_index_in_range (idx : Z) (shape : list Z) :
  (0 <= idx < Np.prod shape)%Z ->
  Np.unravel_index idx shape = inr (Np.unravel_coords idx shape).
Proof.
  intros H. unfold Np.unravel_index.
  destruct ((idx <? 0)%Z || (Np.prod shape <=? idx)%Z) eqn:E; [| reflexivity].
  apply orb_true_iff in E as [E | E]; lia.
Qed.

(** C8.  For every synthesizer and every integer [idx] with [idx < 0] or
    [idx >= totalCombinations], [params_from_idx], [params_dict_from_idx]
    and [stimulus_from_idx] all raise the out-of-bounds error of
    [np.unravel_index]; none returns. *)
Theorem index_out_of_range_raises (s : synth) (idx : Z) :
  (idx < 0 \/ num_stims s <= idx)%Z ->
  params_from_idx s idx = inl (IndexOutOfBounds idx (num_stims s))
  /\ params_dict_from_idx s idx = inl (IndexOutOfBounds idx (num_stims s))
  /\ stimulus_from_idx s idx = inl (IndexOutOfBounds idx (num_stims s)).
Proof.
  intros H.
  assert (Hp : params_from_idx s idx = inl (IndexOutOfBounds idx (num_stims s))).
  { pose proof (unravel_index_out_of_range idx (num_params s) H) as Hu.
    unfold num_params in Hu.
    destruct s; cbn [params_from_idx];
      unfold GaborSet.params_from_idx, PlaidsSet.params_from_idx,
        GaborSet.params_from_idx_on, StimuliSet.params_from_idx;
      cbn [params] in Hu |- *; rewrite Hu; reflexivity. }
  unfold stimulus_from_idx, params_dict_from_idx. rewrite Hp.
  repeat split; reflexivity.
Qed.

(** ** Batches *)

Section Ranges.

Open Scope Z_scope.

Lemma map_seq_shift {A} (f : nat -> A) (n s m : nat) :
  map f (seq (n + s) m) = map (fun k => f (n + k)%nat) (seq s m).
Proof.
  revert s; induction m as [| m IH]; intros s; simpl; [reflexivity |].
  f_equal. rewrite <- IH. f_equal. f_equal. lia.
Qed.

Lemma range_length (a b : Z) :
  List.length (Np.range a b) = Z.to_nat (b - a).
Proof. unfold Np.range. rewrite length_map, length_seq. reflexivity. Qed.

Lemma range_app (a b c : Z) :
  a <= b <= c -> Np.range a b ++ Np.range b c = Np.range a c.
Proof.
  intros H. unfold Np.range.
  replace (Z.to_nat (c - a)) with (Z.to_nat (b - a) + Z.to_nat (c - b))%nat
    by lia.
  rewrite seq_app, map_app. f_equal.
  replace (0 + Z.to_nat (b - a))%nat with (Z.to_nat (b - a) + 0)%nat by lia.
  rewrite map_seq_shift. apply map_ext. intros k. lia.
Qed.

Lemma range_In (a b k : Z) : In k (Np.range a b) <-> a <= k < b.
Proof.
  unfold Np.range. rewrite in_map_iff. split.
  - intros (n & <- & Hn). apply in_seq in Hn. lia.
  - intros H. exists (Z.to_nat (k - a)). split; [lia |].
    apply in_seq. lia.
Qed.

Lemma batch_count_spec (total b : Z) :
  0 <= total -> 1 <= b ->
  let m := Z.of_nat (batch_count total b) in
  (m - 1) * b < total <= m * b \/ (total = 0 /\ m = 0).
Proof.
  intros Ht Hb m. subst m. unfold batch_count.
  pose proof (Z.div_mod (- total) b ltac:(lia)) as Hdm.
  pose proof (Z.mod_pos_bound (- total) b ltac:(lia)) as Hr.
  set (q := (- total) / b) in *. set (r := (- total) mod b) in *.
  assert (Hq : q <= 0).
  { destruct (Z_le_gt_dec q 0) as [Hle | Hgt]; [exact Hle | exfalso].
    assert (b <= b * q) by nia. lia. }
  rewrite Z2Nat.id by lia.
  destruct (Z.eq_dec total 0) as [-> | Hne].
  - assert (q = 0) by nia. right. split; lia.
  - left. split; nia.
Qed.

Lemma batch_ranges_eq (total b : Z) :
  1 <= b ->
  batch_ranges total b =
  inr (map (fun k => (Z.of_nat k * b, Z.min (Z.of_nat k * b + b) total))
           (seq 0 (batch_count total b))).
Proof.
  intros Hb. unfold batch_ranges, Np.arange_step.
  destruct (Z.eqb_spec b 0) as [-> | _]; [lia |].
  cbn [bind ret]. rewrite map_map. reflexivity.
Qed.

(** Chunks [k*b, min(k*b+b, n)) for k < m, one after the other, are the
    range [0, n) when m is the number of batches for n. *)
Lemma chunks_concat (b : Z) (m : nat) (n : Z) :
  1 <= b ->
  (Z.of_nat m - 1) * b < n <= Z.of_nat m * b \/ (n = 0 /\ m = 0%nat) ->
  List.concat
    (map (fun k => Np.range (Z.of_nat k * b) (Z.min (Z.of_nat k * b + b) n))
         (seq 0 m))
  = Np.range 0 n.
Proof.
  intros Hb. revert n. induction m as [| m IH]; intros n Hn.
  - unfold Np.range. replace (Z.to_nat (n - 0)) with 0%nat by lia.
    reflexivity.
  - rewrite seq_S, map_app, concat_app. cbn [map List.concat plus].
    rewrite app_nil_r.
    rewrite <- (range_app 0 (Z.of_nat m * b) n) by nia.
    f_equal.
    + rewrite <- (IH (Z.of_nat m * b)).
      * f_equal. apply map_ext_in. intros k Hk. apply in_seq in Hk.
        f_equal. nia.
      * destruct m as [| m']; [right; split; lia | left; nia].
    + f_equal. nia.
Qed.

End Ranges.

(** ** Shapes *)

Lemma arr_shape_map {A B} (f : A -> B) (h w : nat) (a : array A) :
  arr_shape h w a -> arr_shape h w (arr_map f a).
Proof.
  intros [Hh Hw]. unfold arr_shape, arr_map. rewrite length_map. split; [exact Hh |].
  apply Forall_map. eapply Forall_impl; [| exact Hw].
  intros row Hrow. cbn beta. rewrite length_map. exact Hrow.
Qed.

Lemma arr_shape_map2 {A B C} (f : A -> B -> C) (h w : nat) (a : array A)
    (b : array B) :
  arr_shape h w a -> arr_shape h w b -> arr_shape h w (arr_map2 f a b).
Proof.
  unfold arr_shape, arr_map2. intros [Ha Fa] [Hb Fb]. split.
  - rewrite map2_length, Ha, Hb. apply Nat.min_id.
  - clear Ha Hb. revert b Fb.
    induction Fa as [| ra a Hra _ IH]; intros [| rb b] Fb; simpl;
      try constructor.
    + inversion Fb; subst. rewrite map2_length. lia.
    + inversion Fb; subst. apply IH. assumption.
Qed.

Lemma arr_shape_meshgrid {A} (xs ys : list A) :
  arr_shape (List.length ys) (List.length xs) (fst (meshgrid xs ys))
  /\ arr_shape (List.length ys) (List.length xs) (snd (meshgrid xs ys)).
Proof.
  unfold arr_shape, meshgrid; cbn [fst snd]. rewrite !length_map.
  repeat split; apply Forall_map, Forall_forall; intros y _;
    [reflexivity | apply length_map].
Qed.

Lemma arr_shape_chunks {A} (h w : nat) (l : list A) :
  List.length l = (h * w)%nat -> arr_shape h w (chunks h w l).
Proof.
  revert l; induction h as [| h IH]; intros l Hl; simpl.
  - split; [reflexivity | constructor].
  - destruct (IH (skipn w l)) as [Hh Hw].
    { rewrite length_skipn. lia. }
    split; [simpl; f_equal; exact Hh |].
    constructor; [| exact Hw]. rewrite length_firstn. lia.
Qed.

Lemma arr_shape_rotate (theta : R) (h w : nat) (x y : image) :
  arr_shape h w x -> arr_shape h w y ->
  arr_shape h w (fst (rotate theta x y))
  /\ arr_shape h w (snd (rotate theta x y)).
Proof.
  intros Hx Hy. unfold rotate; cbn [fst snd].
  split; apply arr_shape_map2; assumption.
Qed.

Lemma arr_shape_frame (d : display) (location : Z * Z) (theta : R) :
  let fr := (let (x, y) :=
               meshgrid (arange_minus (fst (canvas_size d)) (fst location))
                        (arange_minus (snd (canvas_size d)) (snd location)) in
             rotate theta x y) in
  arr_shape (snd (canvas_size d)) (fst (canvas_size d)) (fst fr)
  /\ arr_shape (snd (canvas_size d)) (fst (canvas_size d)) (snd fr).
Proof.
  cbv zeta.
  pose proof (arr_shape_meshgrid
                (arange_minus (fst (canvas_size d)) (fst location))
                (arange_minus (snd (canvas_size d)) (snd location))) as [Hx Hy].
  rewrite !arange_minus_length in Hx, Hy.
  destruct (meshgrid _ _) as [x y]. cbn [fst snd] in Hx, Hy.
  apply arr_shape_rotate; assumption.
Qed.

Lemma GaborSet_stimulus_shape (d : display) (location : Z * Z)
    (size sf contrast theta phase gamma : R) :
  arr_shape (snd (canvas_size d)) (fst (canvas_size d))
            (GaborSet.stimulus d location size sf contrast theta phase gamma).
Proof.
  unfold GaborSet.stimulus.
  pose proof (arr_shape_frame d location theta) as H. cbv zeta in H.
  destruct (meshgrid _ _) as [x y]. destruct (rotate theta x y) as [xr yr].
  destruct H as [Hx Hy]. cbn [fst snd] in Hx, Hy.
  repeat first [apply arr_shape_map | apply arr_shape_map2 | assumption].
Qed.

Lemma PlaidsSet_stimulus_shape (d : display) (location : Z * Z)
    (size sf theta phase gamma cp co : R) :
  arr_shape (snd (canvas_size d)) (fst (canvas_size d))
            (PlaidsSet.stimulus d location size sf theta phase gamma cp co).
Proof.
  unfold PlaidsSet.stimulus. apply arr_shape_map2; apply GaborSet_stimulus_shape.
Qed.

Lemma reshape_shape {A} (h w : nat) (l : list A) (a : array A) :
  reshape h w l = inr a -> arr_shape h w a.
Proof.
  unfold reshape. destruct (Nat.eqb_spec (List.length l) (h * w)) as [E | _];
    [| discriminate].
  intros H. injection H as <-. apply arr_shape_chunks. exact E.
Qed.

Lemma DiffOfGaussians_stimulus_shape (d : display) (location : Z * Z)
    (size sss contrast csc : R) (img : image) :
  DiffOfGaussians.stimulus d location size sss contrast csc = inr img ->
  arr_shape (snd (canvas_size d)) (fst (canvas_size d)) img.
Proof.
  unfold DiffOfGaussians.stimulus.
  destruct (Rle_dec sss 1); [discriminate |].
  destruct (meshgrid _ _) as [x y]. intros H.
  apply bind_inr in H as (center & Hc & H).
  apply bind_inr in H as (surround & Hs & H).
  apply bind_inr in H as (mn & _ & H).
  apply bind_inr in H as (mx & _ & H).
  injection H as <-.
  apply reshape_shape in Hc, Hs.
  apply arr_shape_map, arr_shape_map2; assumption.
Qed.

Lemma CenterSurround_stimulus_shape (d : display) (location : Z * Z)
    (st sc ss cc cs oc os sf pc ps : R) (img : image) :
  CenterSurround.stimulus d location st sc ss cc cs oc os sf pc ps = inr img ->
  arr_shape (snd (canvas_size d)) (fst (canvas_size d)) img.
Proof.
  unfold CenterSurround.stimulus.
  destruct (Rgt_dec sc ss); [discriminate |].
  intros H. cbv zeta in H.
  unfold CenterSurround.envelope_center, CenterSurround.envelope_surround,
    CenterSurround.norm_xy, CenterSurround.frame in H.
  pose proof (arr_shape_frame d location oc) as Hc.
  pose proof (arr_shape_frame d location os) as Hs.
  cbv zeta in Hc, Hs.
  destruct (meshgrid _ _) as [x y].
  destruct (rotate oc x y) as [xc yc]. destruct (rotate os x y) as [xs ys].
  destruct Hc as [Hxc Hyc], Hs as [Hxs Hys]. cbn [fst snd] in *.
  injection H as <-.
  repeat first [apply arr_shape_map | apply arr_shape_map2 | assumption].
Qed.

Lemma stimulus_shape (s : synth) (kw : dict) (img : image) :
  stimulus s kw = inr img ->
  arr_shape (snd (canvas_size (disp s))) (fst (canvas_size (disp s))) img.
Proof.
  destruct s as [g | p | d | c]; cbn [stimulus disp];
    unfold GaborSet.stimulus_kw, PlaidsSet.stimulus_kw,
      DiffOfGaussians.stimulus_kw, CenterSurround.stimulus_kw; intros H.
  - repeat (apply bind_inr in H as (? & _ & H)). injection H as <-.
    apply GaborSet_stimulus_shape.
  - repeat (apply bind_inr in H as (? & _ & H)).
    destruct (PlaidsSet.repeated_keyword kw); [discriminate |].
    injection H as <-. apply PlaidsSet_stimulus_shape.
  - repeat (apply bind_inr in H as (? & _ & H)).
    eapply DiffOfGaussians_stimulus_shape; eassumption.
  - destruct (negb _); [discriminate |].
    repeat (apply bind_inr in H as (? & _ & H)).
    eapply CenterSurround_stimulus_shape; eassumption.
Qed.

(** ** Generators *)

Lemma mapM_returns {A B} (f : A -> result B) (l : list A) :
  (forall a, In a l -> returns (f a)) -> returns (mapM f l).
Proof.
  induction l as [| a l IH]; intros H; cbn [mapM].
  - eexists. reflexivity.
  - destruct (H a (or_introl eq_refl)) as [b Hb].
    destruct IH as [bs Hbs]; [intros a' Ha'; apply H; right; exact Ha' |].
    rewrite Hb, Hbs. eexists. reflexivity.
Qed.

Lemma mapM_app {A B} (f : A -> result B) (l1 l2 : list A) (b1 b2 : list B) :
  mapM f l1 = inr b1 -> mapM f l2 = inr b2 ->
  mapM f (l1 ++ l2) = inr (b1 ++ b2).
Proof.
  revert b1; induction l1 as [| a l1 IH]; intros b1 H1 H2; cbn [mapM app] in *.
  - injection H1 as <-. exact H2.
  - apply bind_inr in H1 as (b & Hb & H1).
    apply bind_inr in H1 as (bs & Hbs & H1). injection H1 as <-.
    rewrite Hb, (IH bs Hbs H2). reflexivity.
Qed.

Lemma mapM_concat {A B C} (f : A -> result B) (g : C -> list A) (l : list C)
    (bss : list (list B)) :
  Forall2 (fun c bs => mapM f (g c) = inr bs) l bss ->
  mapM f (List.concat (map g l)) = inr (List.concat bss).
Proof.
  induction 1 as [| c bs l bss Hc _ IH]; cbn [map List.concat].
  - reflexivity.
  - apply mapM_app; assumption.
Qed.

(** A generator whose steps all return is consumed to the end without an
    exception. *)
Lemma consume_all_return {A B} (G : A -> result B) (l : list A) :
  (forall a, In a l -> returns (G a)) ->
  exists bs : list B,
    consume (map G l) = (bs, None) /\ Forall2 (fun a b => G a = inr b) l bs.
Proof.
  induction l as [| a l IH]; intros H; cbn [map consume].
  - exists []. split; [reflexivity | constructor].
  - destruct (H a (or_introl eq_refl)) as [b Hb].
    destruct IH as (bs & Hc & HF); [intros a' Ha'; apply H; right; exact Ha' |].
    exists (b :: bs). rewrite Hb, Hc. split; [reflexivity |].
    constructor; assumption.
Qed.

Section Batches.

Open Scope Z_scope.

Variable s : synth.
Variable b : Z.

(** C9.  For batch size [b >= 1] the loop of [image_batches] runs over
    consecutive index ranges that, one after the other, are exactly
    [0, totalCombinations): range k starts at [k * b]; every range but the
    last has length [b]; the last has length [totalCombinations mod b], or
    [b] when that is 0; the lengths add up to [totalCombinations]; and
    every array the generator yields has shape (chunk length, height,
    width). *)
Theorem image_batches_partition :
  1 <= b ->
  exists ranges : list (Z * Z),
    batch_ranges (num_stims s) b = inr ranges
    /\ image_batches s b
       = map (fun be => mapM (stimulus_from_idx s)
                             (Np.range (fst be) (snd be))) ranges
    /\ List.concat (map (fun be => Np.range (fst be) (snd be)) ranges)
       = Np.range 0 (num_stims s)
    /\ (forall (k : nat) (be : Z * Z),
           nth_error ranges k = Some be ->
           fst be = Z.of_nat k * b
           /\ snd be = Z.min (fst be + b) (num_stims s)
           /\ fst be < snd be
           /\ ((S k < List.length ranges)%nat -> snd be - fst be = b)
           /\ (S k = List.length ranges :> nat ->
               snd be - fst be
               = if num_stims s mod b =? 0 then b else num_stims s mod b))
    /\ list_sum (map (fun be => Z.to_nat (snd be - fst be)) ranges)
       = Z.to_nat (num_stims s)
    /\ (forall (k : nat) (be : Z * Z) (batch : list image),
           nth_error ranges k = Some be ->
           nth_error (image_batches s b) k = Some (inr batch) ->
           List.length batch = Z.to_nat (snd be - fst be)
           /\ Forall (arr_shape (snd (canvas_size (disp s)))
                                (fst (canvas_size (disp s)))) batch)
    /\ ((forall idx : Z,
            0 <= idx < num_stims s -> returns (stimulus_from_idx s idx)) ->
        exists batches : list (list image),
          consume (image_batches s b) = (batches, None)
          /\ map (@List.length image) batches
             = map (fun be => Z.to_nat (snd be - fst be)) ranges
          /\ images s = inr (List.concat batches)).
Proof.
  intros Hb. set (n := num_stims s).
  pose proof (num_stims_nonneg s) as Hn. fold n in Hn.
  pose proof (batch_ranges_eq n b Hb) as Hr.
  pose proof (batch_count_spec n b Hn Hb) as Hm. cbv zeta in Hm.
  set (m := batch_count n b) in *.
  set (ranges := map (fun k => (Z.of_nat k * b,
                                Z.min (Z.of_nat k * b + b) n)) (seq 0 m)) in *.
  assert (Hcat : List.concat (map (fun be => Np.range (fst be) (snd be)) ranges)
                 = Np.range 0 n).
  { subst ranges. rewrite map_map. cbn [fst snd].
    apply chunks_concat; [exact Hb |].
    destruct Hm as [Hm | [Hm1 Hm2]]; [left; exact Hm | right; split; lia]. }
  assert (Hlen : List.length ranges = m).
  { subst ranges. rewrite length_map, length_seq. reflexivity. }
  assert (Hnth : forall k be, nth_error ranges k = Some be ->
                   (k < m)%nat /\ be = (Z.of_nat k * b,
                                        Z.min (Z.of_nat k * b + b) n)).
  { intros k be Hk. subst ranges. rewrite nth_error_map, nth_error_seq0 in Hk.
    destruct (Nat.ltb_spec k m); [| discriminate].
    injection Hk as <-. split; [assumption | reflexivity]. }
  assert (Himg : image_batches s b
                 = map (fun be => mapM (stimulus_from_idx s)
                                       (Np.range (fst be) (snd be))) ranges).
  { unfold image_batches. fold n. rewrite Hr. reflexivity. }
  exists ranges. split; [exact Hr |]. split; [exact Himg |].
  split; [exact Hcat |]. split; [| split; [| split]].
  - intros k be Hk. destruct (Hnth k be Hk) as [Hkm ->]. cbn [fst snd].
    rewrite Hlen.
    assert (Hmb : (Z.of_nat m - 1) * b < n <= Z.of_nat m * b) by lia.
    split; [reflexivity |]. split; [reflexivity |].
    split; [nia |]. split.
    + intros Hlt. assert (Z.of_nat k * b + b <= n) by nia. lia.
    + intros Heq. assert (Hkz : Z.of_nat k = Z.of_nat m - 1) by lia.
      rewrite Hkz. rewrite Z.min_r by lia.
      destruct (Z.eqb_spec (n mod b) 0) as [E | E].
      * apply Z.mod_divide in E; [| lia]. destruct E as [q Hq].
        assert (Hq1 : Z.of_nat m - 1 < q).
        { apply (Z.mul_lt_mono_pos_r b); lia. }
        assert (Hq2 : q <= Z.of_nat m).
        { apply (Z.mul_le_mono_pos_r _ _ b); lia. }
        assert (q = Z.of_nat m) by lia. subst q. lia.
      * apply (Z.mod_unique n b (Z.of_nat m - 1)); [| lia].
        left. split; [lia |].
        assert (n <> Z.of_nat m * b); [| lia].
        intros Hc. apply E. rewrite Hc. apply Z.mod_mul. lia.
  - apply (f_equal (@List.length Z)) in Hcat.
    rewrite length_concat, map_map, range_length in Hcat.
    rewrite Z.sub_0_r in Hcat. rewrite <- Hcat. f_equal.
    apply map_ext. intros be. symmetry. apply range_length.
  - intros k be batch Hk Hy. rewrite Himg, nth_error_map, Hk in Hy.
    cbn [option_map] in Hy. injection Hy as Hy. split.
    + rewrite (mapM_length _ _ _ Hy). apply range_length.
    + eapply mapM_Forall; [| exact Hy].
      intros idx img _ Hst. unfold stimulus_from_idx in Hst.
      apply bind_inr in Hst as (kw & _ & Hst).
      eapply stimulus_shape. exact Hst.
  - intros Hall.
    destruct (consume_all_return
                (fun be => mapM (stimulus_from_idx s)
                                (Np.range (fst be) (snd be))) ranges)
      as (batches & Hcons & HF).
    { intros be Hbe. apply mapM_returns. intros idx Hidx. apply Hall.
      apply range_In. fold n. rewrite <- Hcat. apply in_concat.
      exists (Np.range (fst be) (snd be)). split; [| exact Hidx].
      apply in_map_iff. exists be. split; [reflexivity | exact Hbe]. }
    exists batches. rewrite Himg. split; [exact Hcons |]. split.
    + clear - HF. induction HF as [| be batch l bs Hb _ IH]; cbn [map].
      * reflexivity.
      * rewrite (mapM_length _ _ _ Hb), range_length, IH. reflexivity.
    + unfold images. fold n. rewrite <- Hcat. apply mapM_concat. exact HF.
Qed.

End Batches.

(** ** Mixed-radix decomposition *)

Section MixedRadix.

Open Scope Z_scope.

Lemma prod_pos (l : list Z) : positive l -> 0 < Np.prod l.
Proof. induction 1 as [| d l Hd _ IH]; simpl; [lia | nia]. Qed.

Lemma prod_app (l1 l2 : list Z) :
  Np.prod (l1 ++ l2) = Np.prod l1 * Np.prod l2.
Proof.
  induction l1 as [| d l1 IH].
  - change (Np.prod l2 = 1 * Np.prod l2). lia.
  - change (d * Np.prod (l1 ++ l2) = d * Np.prod l1 * Np.prod l2).
    rewrite IH. ring.
Qed.

Lemma prod_rev (l : list Z) : Np.prod (rev l) = Np.prod l.
Proof.
  induction l as [| d l IH]; [reflexivity |].
  cbn [rev]. rewrite prod_app, IH.
  change (Np.prod l * (d * 1) = d * Np.prod l). ring.
Qed.

Lemma positive_rev (l : list Z) : positive l -> positive (rev l).
Proof. apply Forall_rev. Qed.

Lemma unravel_rev_app (val : Z) (l l' : list Z) :
  positive l ->
  Np.unravel_rev val (l ++ l')
  = Np.unravel_rev val l ++ Np.unravel_rev (val / Np.prod l) l'.
Proof.
  intros Hl. revert val. induction Hl as [| d l Hd Hl IH]; intros val; simpl.
  - rewrite Z.div_1_r. reflexivity.
  - rewrite IH. pose proof (prod_pos l Hl) as HP.
    rewrite Z.div_div by lia. reflexivity.
Qed.



(** The leading coordinate divides out the radices that follow it. *)
Lemma unravel_coords_cons (val d : Z) (ds : list Z) :
  positive ds ->
  Np.unravel_coords val (d :: ds)
  = ((val / Np.prod ds) mod d) :: Np.unravel_coords val ds.
Proof.
  intros Hds. unfold Np.unravel_coords. simpl rev.
  rewrite unravel_rev_app by (apply positive_rev; exact Hds).
  rewrite rev_app_distr, prod_rev. reflexivity.
Qed.



(** The coordinates depend on the index modulo the product of the
    radices only. *)
Lemma unravel_coords_mod (val : Z) (shape : list Z) :
  positive shape ->
  Np.unravel_coords (val mod Np.prod shape) shape
  = Np.unravel_coords val shape.
Proof.
  intros Hs. revert val. induction Hs as [| d ds Hd Hds IH]; intros val.
  - reflexivity.
  - pose proof (prod_pos ds Hds) as HP.
    rewrite !unravel_coords_cons by exact Hds. cbn [Np.prod fold_right].
    fold (Np.prod ds). set (P := Np.prod ds) in *.
    assert (E : val mod (d * P) = val mod P + P * ((val / P) mod d)).
    { rewrite (Z.mul_comm d P). apply Z.rem_mul_r; lia. }
    pose proof (Z.mod_pos_bound val P HP) as Hr.
    f_equal.
    + rewrite E, (Z.mul_comm P), Z.div_add by lia.
      rewrite Z.div_small by lia. rewrite Z.add_0_l. apply Z.mod_mod. lia.
    + rewrite <- (IH (val mod (d * P))), E.
      rewrite (Z.mul_comm P), Z.mod_add by lia.
      rewrite Z.mod_mod by lia. apply IH.
Qed.

Lemma unravel_coords_mixed_radix (shape : list Z) (val : Z) :
  positive shape -> 0 <= val < Np.prod shape ->
  Np.unravel_coords val shape = mixed_radix val shape.
Proof.
  intros Hs. revert val. induction Hs as [| d ds Hd Hds IH]; intros val Hv.
  - reflexivity.
  - pose proof (prod_pos ds Hds) as HP.
    cbn [Np.prod fold_right] in Hv. fold (Np.prod ds) in Hv.
    rewrite unravel_coords_cons by exact Hds. cbn [mixed_radix].
    f_equal.
    + apply Z.mod_small. split.
      * apply Z.div_pos; lia.
      * apply Z.div_lt_upper_bound; [lia | nia].
    + rewrite <- unravel_coords_mod by exact Hds.
      apply IH. apply Z.mod_pos_bound. exact HP.
Qed.


End MixedRadix.

(** ** Enumeration of the Cartesian product *)

Section Enumeration.

Open Scope Z_scope.

Lemma flat_map_ext_in {A B} (f g : A -> list B) (l : list A) :
  (forall a, In a l -> f a = g a) -> flat_map f l = flat_map g l.
Proof.
  induction l as [| a l IH]; intros H; simpl; [reflexivity |].
  rewrite (H a) by (left; reflexivity). f_equal.
  apply IH. intros a' Ha'. apply H. right. exact Ha'.
Qed.

Lemma map_flat_map {A B C} (f : B -> C) (g : A -> list B) (l : list A) :
  map f (flat_map g l) = flat_map (fun a => map f (g a)) l.
Proof.
  induction l as [| a l IH]; simpl; [reflexivity |].
  rewrite map_app, IH. reflexivity.
Qed.

Lemma range_shift (a n : Z) :
  Np.range a (a + n) = map (fun r => a + r) (Np.range 0 n).
Proof.
  unfold Np.range. rewrite map_map.
  replace (a + n - a) with (n - 0) by lia. reflexivity.
Qed.

Lemma range_mul (d : nat) (P : Z) :
  0 <= P ->
  Np.range 0 (Z.of_nat d * P)
  = flat_map (fun q => map (fun r => q * P + r) (Np.range 0 P))
             (Np.range 0 (Z.of_nat d)).
Proof.
  intros HP. induction d as [| d IH].
  - reflexivity.
  - rewrite <- (range_app 0 (Z.of_nat d * P) (Z.of_nat (S d) * P)) by nia.
    rewrite <- (range_app 0 (Z.of_nat d) (Z.of_nat (S d))) by lia.
    rewrite flat_map_app, <- IH. f_equal.
    replace (Z.of_nat (S d) * P) with (Z.of_nat d * P + P) by lia.
    replace (Z.of_nat (S d)) with (Z.of_nat d + 1) by lia.
    rewrite range_shift, (range_shift (Z.of_nat d) 1). cbn [Np.range].
    simpl. rewrite app_nil_r. rewrite Z.add_0_r. reflexivity.
Qed.

Lemma nth_error_all {A} (l : list A) :
  map (nth_error l) (seq 0 (List.length l)) = map Some l.
Proof.
  induction l as [| a l IH]; [reflexivity |].
  cbn [List.length seq map nth_error]. f_equal.
  rewrite <- seq_shift, map_map. exact IH.
Qed.

Lemma py_index_nonneg {A} (l : list A) (k : nat) :
  py_index l (Z.of_nat k)
  = match nth_error l k with
    | Some v => inr v
    | None => inl IndexError
    end.
Proof.
  unfold py_index.
  destruct (Z.ltb_spec (Z.of_nat k) 0) as [H | _]; [lia |].
  rewrite Nat2Z.id.
  destruct (nth_error l k) as [v |] eqn:E.
  - assert (k < List.length l)%nat by (apply nth_error_Some; congruence).
    destruct (Z.ltb_spec (Z.of_nat k) 0), (Z.leb_spec (Z.of_nat (List.length l))
                                            (Z.of_nat k));
      cbn [orb]; try lia; reflexivity.
  - destruct (_ || _); reflexivity.
Qed.

Lemma py_index_all {A} (l : list A) :
  map (py_index l) (Np.range 0 (Z.of_nat (List.length l))) = map inr l.
Proof.
  unfold Np.range. rewrite Z.sub_0_r, Nat2Z.id, map_map.
  transitivity (map (fun o : option A =>
                       match o with
                       | Some v => inr v
                       | None => inl IndexError
                       end)
                    (map (nth_error l) (seq 0 (List.length l)))).
  - rewrite map_map. apply map_ext. intros k. cbn [Z.add].
    apply py_index_nonneg.
  - rewrite nth_error_all, map_map. reflexivity.
Qed.

(** Pairing every head with every tail, heads slowest. *)
Lemma product_lift {A} (f : Z -> result A) (g : Z -> result (list A))
    (Q R : list Z) (xs : list A) (ys : list (list A)) :
  map f Q = map inr xs ->
  map g R = map inr ys ->
  flat_map (fun q => map (fun r => v <- f q ;; vs <- g r ;; ret (v :: vs)) R) Q
  = map inr (flat_map (fun x => map (cons x) ys) xs).
Proof.
  intros Hf Hg. revert xs Hf.
  induction Q as [| q Q IH]; intros [| x xs] Hf; try discriminate.
  - reflexivity.
  - cbn [map] in Hf. injection Hf as Hq Hf.
    cbn [flat_map]. rewrite map_app, (IH xs Hf). f_equal.
    rewrite Hq. cbn [bind]. clear - Hg. revert ys Hg.
    induction R as [| r R IHR]; intros [| y ys] Hg; try discriminate.
    + reflexivity.
    + cbn [map] in Hg. injection Hg as Hr Hg.
      cbn [map]. rewrite Hr. cbn [bind ret]. f_equal. apply IHR. exact Hg.
Qed.

Lemma select_enumerates (ps : list descriptor) :
  map (fun k => StimuliSet.select ps (mixed_radix k (StimuliSet.num_params ps)))
      (Np.range 0 (Np.prod (StimuliSet.num_params ps)))
  = map inr (cartesian (map fst ps)).
Proof.
  induction ps as [| p ps IH]; [reflexivity |].
  cbn [StimuliSet.num_params map cartesian Np.prod fold_right].
  fold (StimuliSet.num_params ps). fold (Np.prod (StimuliSet.num_params ps)).
  set (counts := StimuliSet.num_params ps) in *.
  set (P := Np.prod counts) in *.
  assert (HP : 0 <= P) by (apply prod_nonneg, num_params_nonneg).
  rewrite range_mul by exact HP. rewrite map_flat_map.
  rewrite <- (product_lift (py_index (fst p))
                (fun r => StimuliSet.select ps (mixed_radix r counts))
                (Np.range 0 (Z.of_nat (List.length (fst p))))
                (Np.range 0 P) (fst p) (cartesian (map fst ps))
                (py_index_all (fst p)) IH).
  apply flat_map_ext_in. intros q Hq. rewrite map_map.
  apply map_ext_in. intros r Hr. apply range_In in Hr.
  cbn [mixed_radix StimuliSet.select]. fold counts. fold P.
  rewrite Z.div_add_l, Z.div_small, Z.add_0_r by lia.
  rewrite Z.add_comm, Z.mod_add, Z.mod_small by lia.
  reflexivity.
Qed.

Lemma nonempty_positive (ps : list descriptor) :
  Forall (fun p => fst p <> []) ps -> positive (StimuliSet.num_params ps).
Proof.
  intros H. unfold positive, StimuliSet.num_params. apply Forall_map.
  eapply Forall_impl; [| exact H]. intros p Hp. cbn beta.
  destruct (fst p) eqn:E; [contradiction | simpl; lia].
Qed.

Lemma params_from_idx_mixed_radix (ps : list descriptor) (idx : Z) :
  Forall (fun p => fst p <> []) ps ->
  0 <= idx < Np.prod (StimuliSet.num_params ps) ->
  StimuliSet.params_from_idx ps idx
  = StimuliSet.select ps (mixed_radix idx (StimuliSet.num_params ps)).
Proof.
  intros Hne Hidx. unfold StimuliSet.params_from_idx.
  rewrite unravel_index_in_range by exact Hidx. cbn [bind ret].
  rewrite unravel_coords_mixed_radix; auto using nonempty_positive.
Qed.

Lemma params_from_idx_enumerates (ps : list descriptor) :
  Forall (fun p => fst p <> []) ps ->
  map (StimuliSet.params_from_idx ps)
      (Np.range 0 (Np.prod (StimuliSet.num_params ps)))
  = map inr (cartesian (map fst ps)).
Proof.
  intros Hne. rewrite <- select_enumerates. apply map_ext_in.
  intros k Hk. apply range_In in Hk.
  apply params_from_idx_mixed_radix; assumption.
Qed.

End Enumeration.

(** ** Injectivity *)

Section Injectivity.

Open Scope Z_scope.






End Injectivity.

Section IndexToAssignment.

Open Scope Z_scope.


End IndexToAssignment.

(** ** Relative spatial frequency *)

Section RelativeSpatialFrequency.

Open Scope R_scope.

(** GaborSet (and PlaidsSet through it) divides the spatial-frequency
    entry by the size entry when [relative_sf] is set. *)
Lemma GaborSet_divides_by_size (g : GaborSet.t) (idx : Z) (p0 : value)
    (size sf : R) (rest : list value) :
  GaborSet.relative_sf g = true ->
  size <> 0 ->
  StimuliSet.params_from_idx (GaborSet.params g) idx
    = inr (p0 :: VNum size :: VNum sf :: rest) ->
  params_from_idx (Gabor g) idx
    = inr (p0 :: VNum size :: VNum (sf / size) :: rest).
Proof.
  intros Hrel Hsz Hbase. cbn [params_from_idx].
  unfold GaborSet.params_from_idx, GaborSet.params_from_idx_on.
  rewrite Hbase, Hrel. cbn [bind GaborSet.rescale_sf].
  destruct (Req_dec_T size 0); [contradiction | reflexivity].
Qed.

(** With [relative_sf] set, the assignment of a Gabor synthesizer is not an
    element of the Cartesian product of its value lists: the sample has
    size 4 and spatial frequency 1 and resolves to spatial frequency 1/4. *)
Lemma Gabor_relative_sf_leaves_product :
  exists vals : list value,
    params_from_idx (Gabor gabor_sample) 0 = inr vals
    /\ nth_error vals 2 = Some (VNum (1 / 4))
    /\ ~ In vals (cartesian (map fst (params (Gabor gabor_sample)))).
Proof.
  eexists. split; [| split].
  - apply (GaborSet_divides_by_size gabor_sample 0 (VLoc 1 1) 4 1
             [VNum 1; VNum 0; VNum 0; VNum 1]);
      [reflexivity | lra | reflexivity].
  - reflexivity.
  - intros [H | []]. injection H as H. lra.
Qed.

(** CenterSurround resolves an index with the base method, whatever its
    [relative_sf] flag. *)
Lemma CenterSurround_params_from_idx_base (c : CenterSurround.t) (idx : Z) :
  params_from_idx (CS c) idx
  = StimuliSet.params_from_idx (CenterSurround.params c) idx.
Proof. reflexivity. Qed.

(** On the sample canvas, the pixel one column right of the location lies in
    the center disk and carries [cos (2 pi sf)] for the spatial frequency
    [sf] given to the formula. *)
Lemma center_surround_sample_pixel (sf : R) (img : image) :
  CenterSurround.stimulus (CenterSurround.disp center_surround_sample)
    (0, 0)%Z 2 1 1 1 1 0 0 sf 0 0 = inr img ->
  pixel img 1 0 = Some (cos (sf * (2 * PI))).
Proof.
  intros H.
  rewrite (pixel_CenterSurround_stimulus _ _ _ _ _ _ _ _ _ _ _ _ _ 1%nat 0%nat H).
  rewrite pixel_envelope_center, pixel_envelope_surround.
  change (on_canvas (CenterSurround.disp center_surround_sample) 1 0) with true.
  cbv iota.
  assert (Hx : px_x (0, 0)%Z 0 1 0 = 1).
  { unfold px_x. cbn [fst snd].
    change (Z.of_nat 1 - 0)%Z with 1%Z. change (Z.of_nat 0 - 0)%Z with 0%Z.
    rewrite cos_0, sin_0. ring. }
  assert (Hy : px_y (0, 0)%Z 0 1 0 = 0).
  { unfold px_y. cbn [fst snd].
    change (Z.of_nat 1 - 0)%Z with 1%Z. change (Z.of_nat 0 - 0)%Z with 0%Z.
    rewrite cos_0, sin_0. ring. }
  assert (Hn : px_norm (0, 0)%Z 0 1 0 = 1).
  { unfold px_norm. rewrite Hx, Hy.
    replace (1 ^ 2 + 0 ^ 2) with 1 by ring. apply sqrt_1. }
  assert (Ha : amplitude_of (CenterSurround.disp center_surround_sample) 1 = 1).
  { unfold amplitude_of.
    change (grey_level (CenterSurround.disp center_surround_sample)) with 0.
    change (pixel_boundaries (CenterSurround.disp center_surround_sample))
      with (-1, 1).
    cbn [fst snd].
    replace (-1 - 0) with (- (1)) by ring. replace (1 - 0) with 1 by ring.
    rewrite Rabs_Ropp, Rabs_R1, Rmin_left by lra. ring. }
  rewrite Hn, Hx, Ha.
  assert (Hc : R_le_b 1 (1 * 2) = true).
  { unfold R_le_b. destruct (Rle_dec 1 (1 * 2)); [reflexivity | lra]. }
  assert (Hs : R_gt_b 1 (1 * 2) = false).
  { unfold R_gt_b. destruct (Rgt_dec 1 (1 * 2)); [lra | reflexivity]. }
  rewrite Hc, Hs. cbn [andb b2R]. f_equal.
  replace (sf * 1 * (2 * PI) + 0) with (sf * (2 * PI)) by ring. ring.
Qed.

(** C1 (the code at the failing input).  A CenterSurround synthesizer with
    [relative_sf=True], total size 2 and configured spatial frequency 1:
    index 0 resolves to spatial frequency 1, not 1/2, and that value is the
    one passed to the stimulus formula, for a single index as well as in
    the batch and in the full sweep.  The pixel next to the location is
    [cos (2 pi) = 1]; with the frequency divided by the size it would be
    [cos pi = -1]. *)
Theorem CenterSurround_ignores_relative_sf :
  let c := center_surround_sample in
  let d := CenterSurround.disp c in
  let formula (sf : R) :=
    CenterSurround.stimulus d (0, 0)%Z 2 1 1 1 1 0 0 sf 0 0 in
  CenterSurround.relative_sf c = true
  /\ num_stims (CS c) = 1%Z
  /\ params_from_idx (CS c) 0
     = inr [VLoc 0 0; VNum 2; VNum 1; VNum 1; VNum 1; VNum 1; VNum 0; VNum 0;
            VNum 1; VNum 0; VNum 0]
  /\ (exists kw : dict,
         params_dict_from_idx (CS c) 0 = inr kw
         /\ dict_get "size_total" kw = Some (VNum 2)
         /\ dict_get "spatial_frequency" kw = Some (VNum 1))
  /\ stimulus_from_idx (CS c) 0 = formula 1
  /\ images (CS c) = (img <- formula 1 ;; ret [img])
  /\ image_batches (CS c) 1 = [img <- formula 1 ;; ret [img]]
  /\ (exists img : image,
         stimulus_from_idx (CS c) 0 = inr img /\ pixel img 1 0 = Some 1)
  /\ (exists img : image,
         formula (1 / 2) = inr img /\ pixel img 1 0 = Some (-1))
  /\ 1 <> 1 / 2.
Proof.
  cbv zeta.
  split; [reflexivity |]. split; [reflexivity |]. split; [reflexivity |].
  split; [eexists; split; [reflexivity | split; reflexivity] |].
  assert (Hst : stimulus_from_idx (CS center_surround_sample) 0
                = CenterSurround.stimulus
                    (CenterSurround.disp center_surround_sample) (0, 0)%Z
                    2 1 1 1 1 0 0 1 0 0) by reflexivity.
  assert (Hret : forall sf,
             returns (CenterSurround.stimulus
                        (CenterSurround.disp center_surround_sample) (0, 0)%Z
                        2 1 1 1 1 0 0 sf 0 0)).
  { intros sf. apply CenterSurround_returns. lra. }
  split; [exact Hst |].
  split; [| split; [| split; [| split; [| lra]]]].
  - unfold images.
    change (Np.range 0 (num_stims (CS center_surround_sample))) with [0%Z].
    cbn [mapM]. rewrite Hst. reflexivity.
  - unfold image_batches.
    change (batch_ranges (num_stims (CS center_surround_sample)) 1)
      with (@inr exn _ [(0, 1)%Z]).
    cbn [map fst snd]. change (Np.range 0 1) with [0%Z].
    cbn [mapM]. rewrite Hst. reflexivity.
  - rewrite Hst. destruct (Hret 1) as [img Himg]. exists img.
    split; [exact Himg |].
    rewrite (center_surround_sample_pixel 1 img Himg). f_equal.
    rewrite Rmult_1_l. apply cos_2PI.
  - destruct (Hret (1 / 2)) as [img Himg]. exists img.
    split; [exact Himg |].
    rewrite (center_surround_sample_pixel (1 / 2) img Himg). f_equal.
    replace (1 / 2 * (2 * PI)) with PI by field. apply cos_PI.
Qed.

End RelativeSpatialFrequency.

(** ** Instances *)

Section Instances.

Open Scope R_scope.

Lemma CenterSurround_zero_outside_masks_witness :
  exists img : image,
    CenterSurround.stimulus (Display (3, 3)%nat (1 / 2) (-1, 1)) (1, 1)%Z
      1 (1 / 4) (1 / 2) 1 1 0 0 1 0 0 = inr img.
Proof.
  destruct (CenterSurround_zero_outside_masks
              (Display (3, 3)%nat (1 / 2) (-1, 1)) (1, 1)%Z
              1 (1 / 4) (1 / 2) 1 1 0 0 1 0 0 ltac:(lra))
    as (img & Himg & _).
  exists img. exact Himg.
Defined.

Lemma CenterSurround_masks_disjoint_witness :
  ~ (pixel (CenterSurround.envelope_center
              (Display (3, 3)%nat 0 (-1, 1)) (1, 1)%Z 1 (1 / 2) 0) 0 1
     = Some true
     /\ pixel (CenterSurround.envelope_surround
                 (Display (3, 3)%nat 0 (-1, 1)) (1, 1)%Z 1 (1 / 2) (PI / 4))
              0 1
        = Some true).
Proof.
  apply (CenterSurround_masks_disjoint
           (Display (3, 3)%nat 0 (-1, 1)) (1, 1)%Z 1 (1 / 2) (1 / 2)
           0 (PI / 4) 0 1).
  lra.
Defined.

Lemma Plaid_is_sum_of_two_Gabors_witness :
  PlaidsSet.stimulus (PlaidsSet.disp plaids_sample) (1, 1)%Z 4 1 0 0 1
                     1 (1 / 2)
  = arr_map2 Rplus
      (GaborSet.stimulus (GaborSet.disp gabor_sample) (1, 1)%Z 4 1 1 0 0 1)
      (GaborSet.stimulus (GaborSet.disp gabor_sample) (1, 1)%Z 4 1 (1 / 2)
                         (0 + PI / 2) 0 1).
Proof.
  apply (Plaid_is_sum_of_two_Gabors plaids_sample gabor_sample (1, 1)%Z
           4 1 0 0 1 1 (1 / 2)).
  reflexivity.
Defined.

Lemma index_out_of_range_raises_witness :
  params_from_idx (CS center_surround_sample) 1
    = inl (IndexOutOfBounds 1 (num_stims (CS center_surround_sample)))
  /\ params_dict_from_idx (CS center_surround_sample) 1
     = inl (IndexOutOfBounds 1 (num_stims (CS center_surround_sample)))
  /\ stimulus_from_idx (CS center_surround_sample) 1
     = inl (IndexOutOfBounds 1 (num_stims (CS center_surround_sample))).
Proof.
  apply (index_out_of_range_raises (CS center_surround_sample) 1).
  right. change (num_stims (CS center_surround_sample)) with 1%Z. lia.
Defined.

Lemma image_batches_partition_witness :
  exists ranges : list (Z * Z),
    batch_ranges (num_stims (DoG dog_sample)) 4 = inr ranges
    /\ List.concat (map (fun be => Np.range (fst be) (snd be)) ranges)
       = Np.range 0 (num_stims (DoG dog_sample)).
Proof.
  destruct (image_batches_partition (DoG dog_sample) 4 ltac:(lia))
    as (ranges & Hr & _ & Hcat & _).
  exists ranges. split; assumption.
Defined.

End Instances.

(** * Further properties of the code *)

(** ** Constructors *)

Section Constructors.

Open Scope R_scope.

Lemma range_nth_error (a b : Z) (i : nat) :
  nth_error (Np.range a b) i
  = if (i <? Z.to_nat (b - a))%nat then Some (a + Z.of_nat i)%Z else None.
Proof.
  unfold Np.range. rewrite nth_error_map, nth_error_seq0.
  destruct (i <? Z.to_nat (b - a))%nat; reflexivity.
Qed.

Lemma range_NoDup (a b : Z) : NoDup (Np.range a b).
Proof.
  unfold Np.range. apply NoDup_map_NoDup_ForallPairs.
  - intros x y _ _ E. lia.
  - apply seq_NoDup.
Qed.

(** X1.  An orientation or phase count [k] is expanded by [__init__] into
    [k] evenly spaced values [i * span / k], i = 0 .. k-1, all in
    [0, span); an explicit list is stored unchanged. *)
Theorem init_angles_evenly_spaced (span : R) (k : Z) :
  0 < span ->
  List.length (init_angles span (inr k)) = Z.to_nat k
  /\ (forall i : nat,
         (i < Z.to_nat k)%nat ->
         nth_error (init_angles span (inr k)) i
         = Some (IZR (Z.of_nat i) * span / IZR k))
  /\ Forall (fun a => 0 <= a < span) (init_angles span (inr k))
  /\ (forall l : list R, init_angles span (inl l) = l).
Proof.
  intros Hspan. cbn [init_angles].
  split; [| split; [| split]].
  - rewrite length_map, range_length. f_equal. lia.
  - intros i Hi. rewrite nth_error_map, range_nth_error.
    replace (Z.to_nat (k - 0)) with (Z.to_nat k) by lia.
    destruct (Nat.ltb_spec i (Z.to_nat k)); [| lia]. reflexivity.
  - apply Forall_map, Forall_forall. intros i Hi. apply range_In in Hi.
    assert (Hk : 0 < IZR k) by (apply IZR_lt; lia).
    assert (H0 : 0 <= IZR i) by (apply IZR_le; lia).
    assert (H1 : IZR i < IZR k) by (apply IZR_lt; lia).
    split.
    + apply Rmult_le_pos; [nra |]. left. apply Rinv_0_lt_compat. exact Hk.
    + apply (Rmult_lt_reg_r (IZR k)); [exact Hk |].
      unfold Rdiv. rewrite Rmult_assoc, Rinv_l by lra. nra.
  - reflexivity.
Qed.

Lemma init_angles_evenly_spaced_witness :
  List.length (init_angles PI (inr 4%Z)) = 4%nat.
Proof.
  apply (init_angles_evenly_spaced PI 4). apply PI_RGT_0.
Defined.

(** X2.  Without an explicit location list, [__init__] takes every integer
    point of the rectangle [x_start, x_end) x [y_start, y_end), each once,
    [(x_end - x_start) * (y_end - y_start)] of them; an explicit list is
    stored unchanged. *)
Theorem init_locations_grid (x0 x1 y0 y1 : Z) :
  (forall x y : Z,
      In (x, y) (init_locations (x0, x1, y0, y1) None)
      <-> (x0 <= x < x1 /\ y0 <= y < y1)%Z)
  /\ NoDup (init_locations (x0, x1, y0, y1) None)
  /\ List.length (init_locations (x0, x1, y0, y1) None)
     = (Z.to_nat (x1 - x0) * Z.to_nat (y1 - y0))%nat
  /\ (forall l : list (Z * Z), init_locations (x0, x1, y0, y1) (Some l) = l).
Proof.
  cbn [init_locations grid_locations].
  split; [| split; [| split]].
  - intros x y. rewrite in_flat_map. split.
    + intros (x' & Hx & Hy). apply in_map_iff in Hy as (y' & E & Hy).
      injection E as -> ->. apply range_In in Hx, Hy. tauto.
    + intros [Hx Hy]. exists x. split; [apply range_In; exact Hx |].
      apply in_map_iff. exists y. split; [reflexivity | apply range_In; exact Hy].
  - pose proof (range_NoDup x0 x1) as Hnd.
    induction Hnd as [| x l Hx Hl IH]; cbn [flat_map]; [constructor |].
    apply NoDup_app; [| exact IH |].
    + apply NoDup_map_NoDup_ForallPairs; [| apply range_NoDup].
      intros a b _ _ E. injection E as E. exact E.
    + intros [x' y'] H H'. apply in_map_iff in H as (y'' & E & _).
      injection E as <- <-. apply in_flat_map in H' as (x'' & Hx'' & H').
      apply in_map_iff in H' as (y3 & E & _). injection E as -> _.
      contradiction.
  - rewrite length_flat_map.
    rewrite (map_ext _ (fun _ => Z.to_nat (y1 - y0)))
      by (intros x; rewrite length_map; apply range_length).
    rewrite <- (range_length x0 x1).
    induction (Np.range x0 x1) as [| x l IH]; [reflexivity |].
    simpl. simpl in IH. rewrite IH. reflexivity.
  - reflexivity.
Qed.

(** X3.  [__init__] turns eccentricities into aspect ratios
    [gamma = 1 - e^2]: eccentricities in [0, 1] give gammas in [0, 1], one
    per eccentricity and in the same order; without eccentricities the gamma
    list is [1]. *)
Theorem init_gammas_range (es : list R) :
  Forall (fun e => 0 <= e <= 1) es ->
  Forall (fun g => 0 <= g <= 1) (init_gammas (Some es))
  /\ List.length (init_gammas (Some es)) = List.length es
  /\ (forall (i : nat) (e : R),
         nth_error es i = Some e ->
         nth_error (init_gammas (Some es)) i = Some (1 - e ^ 2))
  /\ init_gammas None = [1].
Proof.
  intros H. cbn [init_gammas]. split; [| split; [| split]].
  - apply Forall_map. eapply Forall_impl; [| exact H].
    intros e He. cbn beta. nra.
  - apply length_map.
  - intros i e Hi. rewrite nth_error_map, Hi. reflexivity.
  - reflexivity.
Qed.

Lemma init_gammas_range_witness :
  Forall (fun g => 0 <= g <= 1) (init_gammas (Some [0; 1 / 2; 1])).
Proof.
  apply (init_gammas_range [0; 1 / 2; 1]).
  repeat constructor; lra.
Defined.

End Constructors.

(** ** Resolving an index *)

Section Resolving.

Open Scope Z_scope.

Lemma In_cartesian {A} (ls : list (list A)) (v : list A) :
  In v (cartesian ls) <-> Forall2 (fun x l => In x l) v ls.
Proof.
  revert v. induction ls as [| l ls IH]; intros v; cbn [cartesian].
  - split.
    + intros [<- | []]. constructor.
    + intros H. inversion H. left. reflexivity.
  - rewrite in_flat_map. split.
    + intros (x & Hx & Hv). apply in_map_iff in Hv as (v' & <- & Hv').
      constructor; [exact Hx | apply IH; exact Hv'].
    + intros H. inversion H as [| x l' v' ls' Hx Hv']; subst.
      exists x. split; [exact Hx |]. apply in_map. apply IH. exact Hv'.
Qed.

(** A positive product of counts means that no list is empty. *)
Lemma in_range_nonempty (ps : list descriptor) (idx : Z) :
  0 <= idx < Np.prod (StimuliSet.num_params ps) ->
  Forall (fun p => fst p <> []) ps.
Proof.
  intros H. assert (Hpos : 0 < Np.prod (StimuliSet.num_params ps)) by lia.
  clear H. induction ps as [| p ps IH]; [constructor |].
  cbn [StimuliSet.num_params map Np.prod fold_right] in Hpos.
  fold (StimuliSet.num_params ps) in Hpos.
  fold (Np.prod (StimuliSet.num_params ps)) in Hpos.
  pose proof (prod_nonneg _ (num_params_nonneg ps)) as Hn.
  constructor.
  - intros E. rewrite E in Hpos. cbn in Hpos. lia.
  - apply IH. nia.
Qed.

Lemma params_from_idx_member (ps : list descriptor) (idx : Z) :
  0 <= idx < Np.prod (StimuliSet.num_params ps) ->
  exists vals : list value,
    StimuliSet.params_from_idx ps idx = inr vals
    /\ Forall2 (fun v p => In v (fst p)) vals ps.
Proof.
  intros Hidx. pose proof (in_range_nonempty ps idx Hidx) as Hne.
  pose proof (params_from_idx_enumerates ps Hne) as E.
  assert (Hin : In (StimuliSet.params_from_idx ps idx)
                   (map (StimuliSet.params_from_idx ps)
                        (Np.range 0 (Np.prod (StimuliSet.num_params ps))))).
  { apply in_map. apply range_In. exact Hidx. }
  rewrite E in Hin. apply in_map_iff in Hin as (vals & Hv & Hc).
  exists vals. split; [symmetry; exact Hv |].
  apply In_cartesian in Hc. clear - Hc.
  remember (map fst ps) as ls eqn:Els. revert ps Els.
  induction Hc as [| v l vals ls Hv _ IH]; intros [| p ps] Els;
    try discriminate; [constructor |].
  cbn [map] in Els. injection Els as -> ->. constructor; auto.
Qed.

Lemma params_from_idx_reaches (ps : list descriptor) (vals : list value) :
  Forall2 (fun v p => In v (fst p)) vals ps ->
  exists idx : Z,
    0 <= idx < Np.prod (StimuliSet.num_params ps)
    /\ StimuliSet.params_from_idx ps idx = inr vals.
Proof.
  intros HF.
  assert (Hne : Forall (fun p => fst p <> []) ps).
  { clear - HF. induction HF as [| v p vals ps Hv _ IH]; constructor; auto.
    intros E. rewrite E in Hv. exact Hv. }
  pose proof (params_from_idx_enumerates ps Hne) as E.
  assert (Hin : In (@inr exn _ vals) (map inr (cartesian (map fst ps)))).
  { apply in_map. apply In_cartesian. clear - HF.
    induction HF; cbn [map]; constructor; auto. }
  rewrite <- E in Hin. apply in_map_iff in Hin as (idx & Hv & Hr).
  apply range_In in Hr. exists idx. split; assumption.
Qed.

Lemma Forall2_length_eq {A B} (P : A -> B -> Prop) (l : list A) (l' : list B) :
  Forall2 P l l' -> List.length l = List.length l'.
Proof. induction 1; simpl; auto. Qed.

(** X4.  For an index in [0, totalCombinations) the base [params_from_idx]
    returns, and what it returns has one value per descriptor, in
    descriptor order, each taken from that descriptor's value list;
    conversely every such choice of values is returned for some index in
    range. *)
Theorem params_from_idx_one_of_each (ps : list descriptor) :
  (forall idx : Z,
      0 <= idx < Np.prod (StimuliSet.num_params ps) ->
      exists vals : list value,
        StimuliSet.params_from_idx ps idx = inr vals
        /\ List.length vals = List.length ps
        /\ Forall2 (fun v p => In v (fst p)) vals ps)
  /\ (forall vals : list value,
         Forall2 (fun v p => In v (fst p)) vals ps ->
         exists idx : Z,
           0 <= idx < Np.prod (StimuliSet.num_params ps)
           /\ StimuliSet.params_from_idx ps idx = inr vals).
Proof.
  split.
  - intros idx Hidx.
    destruct (params_from_idx_member ps idx Hidx) as (vals & Hv & HF).
    exists vals. split; [exact Hv |]. split; [| exact HF].
    eapply Forall2_length_eq. exact HF.
  - apply params_from_idx_reaches.
Qed.

End Resolving.

(** ** The keyword dictionary *)

Section Dictionary.

Lemma dict_set_fresh (k : string) (v : value) (d : dict) :
  ~ In k (map fst d) -> dict_set k v d = d ++ [(k, v)].
Proof.
  induction d as [| [k' v'] d IH]; intros H; cbn [dict_set app].
  - reflexivity.
  - cbn [map fst In] in H.
    destruct (String.eqb_spec k k') as [-> | _]; [tauto |].
    rewrite IH by tauto. reflexivity.
Qed.

Lemma make_dict_combine (ps : list descriptor) (vals : list value) (acc : dict) :
  NoDup (map fst acc ++ map snd ps) ->
  List.length vals = List.length ps ->
  StimuliSet.make_dict ps vals acc = inr (acc ++ combine (map snd ps) vals).
Proof.
  revert vals acc. induction ps as [| p ps IH]; intros vals acc Hnd Hlen.
  - cbn. rewrite app_nil_r. reflexivity.
  - destruct vals as [| v vals]; [discriminate |].
    cbn [StimuliSet.make_dict map combine].
    cbn [map] in Hnd. pose proof (NoDup_remove_2 _ _ _ Hnd) as Hk.
    rewrite dict_set_fresh by (intros Hin; apply Hk, in_or_app; left; exact Hin).
    rewrite IH.
    + rewrite <- app_assoc. reflexivity.
    + rewrite map_app. cbn [map fst]. rewrite <- app_assoc. exact Hnd.
    + simpl in Hlen. lia.
Qed.

Lemma dict_get_combine (names : list string) (vals : list value) (i : nat)
    (k : string) (v : value) :
  NoDup names -> nth_error names i = Some k -> nth_error vals i = Some v ->
  dict_get k (combine names vals) = Some v.
Proof.
  intros Hnd. revert vals i.
  induction Hnd as [| n names Hn Hnd IH]; intros vals i Hk Hv.
  - destruct i; discriminate.
  - destruct vals as [| v0 vals]; [destruct i; discriminate |].
    cbn [combine dict_get]. destruct i as [| i].
    + cbn in Hk, Hv. injection Hk as ->. injection Hv as ->.
      rewrite String.eqb_refl. reflexivity.
    + cbn [nth_error] in Hk, Hv.
      destruct (String.eqb_spec k n) as [-> | _].
      * exfalso. apply Hn. eapply nth_error_In. exact Hk.
      * eapply IH; eassumption.
Qed.

Lemma dict_get_absent (names : list string) (vals : list value) (k : string) :
  ~ In k names -> dict_get k (combine names vals) = None.
Proof.
  revert vals. induction names as [| n names IH]; intros vals H; [reflexivity |].
  destruct vals as [| v vals]; [reflexivity |].
  cbn [combine dict_get]. cbn [In] in H.
  destruct (String.eqb_spec k n) as [-> | _]; [tauto |].
  apply IH. tauto.
Qed.

Lemma params_names_NoDup (s : synth) : NoDup (map snd (params s)).
Proof.
  destruct s; cbn;
    repeat (constructor; [cbn; intuition discriminate |]); constructor.
Qed.

Lemma select_length (ps : list descriptor) (c : list Z) (vals : list value) :
  StimuliSet.select ps c = inr vals -> List.length vals = List.length ps.
Proof.
  revert c vals. induction ps as [| p ps IH]; intros c vals H.
  - cbn in H. injection H as <-. reflexivity.
  - destruct c as [| ci c]; [discriminate |]. cbn [StimuliSet.select] in H.
    apply bind_inr in H as (v & _ & H).
    apply bind_inr in H as (vs & Hvs & H). injection H as <-.
    simpl. f_equal. eapply IH. exact Hvs.
Qed.

Lemma rescale_sf_length (relative : bool) (vals vals' : list value) :
  GaborSet.rescale_sf relative vals = inr vals' ->
  List.length vals' = List.length vals.
Proof.
  unfold GaborSet.rescale_sf. destruct relative.
  - destruct vals as [| p0 [| [x y | size] [| [x' y' | sf] rest]]];
      try discriminate.
    destruct (Req_dec_T size 0); [discriminate |].
    intros H. injection H as <-. reflexivity.
  - intros H. injection H as <-. reflexivity.
Qed.

Lemma params_from_idx_length (s : synth) (idx : Z) (vals : list value) :
  params_from_idx s idx = inr vals ->
  List.length vals = List.length (params s).
Proof.
  assert (Hbase : forall ps v,
             StimuliSet.params_from_idx ps idx = inr v ->
             List.length v = List.length ps).
  { intros ps v H. unfold StimuliSet.params_from_idx in H.
    apply bind_inr in H as (c & _ & H). eapply select_length. exact H. }
  destruct s as [g | p | d | c]; cbn [params_from_idx params]; intros H.
  - unfold GaborSet.params_from_idx, GaborSet.params_from_idx_on in H.
    apply bind_inr in H as (v & Hv & H).
    rewrite (rescale_sf_length _ _ _ H). apply Hbase. exact Hv.
  - unfold PlaidsSet.params_from_idx, GaborSet.params_from_idx_on in H.
    apply bind_inr in H as (v & Hv & H).
    rewrite (rescale_sf_length _ _ _ H). apply Hbase. exact Hv.
  - apply Hbase. exact H.
  - apply Hbase. exact H.
Qed.

Lemma params_dict_from_idx_eq (s : synth) (idx : Z) (vals : list value) :
  params_from_idx s idx = inr vals ->
  params_dict_from_idx s idx = inr (combine (map snd (params s)) vals).
Proof.
  intros H. unfold params_dict_from_idx. rewrite H. cbn [bind].
  rewrite make_dict_combine.
  - reflexivity.
  - cbn [map app]. apply params_names_NoDup.
  - eapply params_from_idx_length. exact H.
Qed.

(** X5.  Whenever [params_from_idx] returns, [params_dict_from_idx] returns
    the dictionary that binds the name of each descriptor, in descriptor
    order, to the value resolved for it: looking up the i-th name gives the
    i-th value and a name that is not a parameter is absent.  Whenever
    [params_from_idx] raises, [params_dict_from_idx] raises the same
    exception. *)
Theorem params_dict_from_idx_lookup (s : synth) (idx : Z) :
  (forall vals : list value,
      params_from_idx s idx = inr vals ->
      exists d : dict,
        params_dict_from_idx s idx = inr d
        /\ map fst d = map snd (params s)
        /\ map snd d = vals
        /\ (forall (i : nat) (p : descriptor) (v : value),
               nth_error (params s) i = Some p ->
               nth_error vals i = Some v ->
               dict_get (snd p) d = Some v)
        /\ (forall k : string,
               ~ In k (map snd (params s)) -> dict_get k d = None))
  /\ (forall e : exn,
         params_from_idx s idx = inl e -> params_dict_from_idx s idx = inl e).
Proof.
  split.
  - intros vals H. exists (combine (map snd (params s)) vals).
    pose proof (params_from_idx_length s idx vals H) as Hlen.
    split; [apply params_dict_from_idx_eq; exact H |].
    split; [| split; [| split]].
    + assert (Hl : List.length (map snd (params s)) = List.length vals)
        by (rewrite length_map; symmetry; exact Hlen).
      clear - Hl. revert vals Hl.
      induction (map snd (params s)) as [| n l IH];
        intros [| v vals] Hl; try discriminate; [reflexivity |].
      cbn. f_equal. apply IH. simpl in Hl. lia.
    + assert (Hl : List.length (map snd (params s)) = List.length vals)
        by (rewrite length_map; symmetry; exact Hlen).
      clear - Hl. revert vals Hl.
      induction (map snd (params s)) as [| n l IH];
        intros [| v vals] Hl; try discriminate; [reflexivity |].
      cbn. f_equal. apply IH. simpl in Hl. lia.
    + intros i p v Hp Hv.
      apply (dict_get_combine _ _ i); [apply params_names_NoDup | | exact Hv].
      rewrite nth_error_map.
      transitivity (option_map snd (Some p)); [f_equal; exact Hp | reflexivity].
    + intros k Hk. apply dict_get_absent. exact Hk.
  - intros e H. unfold params_dict_from_idx. rewrite H. reflexivity.
Qed.

End Dictionary.

(** ** From an index to the formula *)

Section Dispatch.

Open Scope R_scope.

Lemma In_locs (v : value) (l : list (Z * Z)) :
  In v (locs l) -> exists x y : Z, v = VLoc x y /\ In (x, y) l.
Proof.
  unfold locs. intros H. apply in_map_iff in H as ([x y] & <- & H).
  exists x, y. split; [reflexivity | exact H].
Qed.

Lemma In_nums (v : value) (l : list R) :
  In v (nums l) -> exists r : R, v = VNum r /\ In r l.
Proof.
  unfold nums. intros H. apply in_map_iff in H as (r & <- & H).
  exists r. split; [reflexivity | exact H].
Qed.

Lemma GaborSet_resolved (g : GaborSet.t) (idx : Z) :
  (0 <= idx < num_stims (Gabor g))%Z ->
  exists (x y : Z) (size sf c o ph gm : R),
    StimuliSet.params_from_idx (GaborSet.params g) idx
    = inr [VLoc x y; VNum size; VNum sf; VNum c; VNum o; VNum ph; VNum gm]
    /\ In (x, y) (GaborSet.locations g) /\ In size (GaborSet.sizes g)
    /\ In sf (GaborSet.spatial_frequencies g) /\ In c (GaborSet.contrasts g)
    /\ In o (GaborSet.orientations g) /\ In ph (GaborSet.phases g)
    /\ In gm (GaborSet.gammas g).
Proof.
  intros Hidx.
  destruct (params_from_idx_member (GaborSet.params g) idx Hidx)
    as (vals & Hv & HF).
  unfold GaborSet.params in HF. split_Forall2. cbn [fst] in *.
  repeat match goal with
         | H : In _ (locs _) |- _ => apply In_locs in H as (? & ? & -> & H)
         | H : In _ (nums _) |- _ => apply In_nums in H as (? & -> & H)
         end.
  repeat eexists; try eassumption.
Qed.

Lemma PlaidsSet_resolved (p : PlaidsSet.t) (idx : Z) :
  (0 <= idx < num_stims (Plaids p))%Z ->
  exists (x y : Z) (size sf o ph gm cp co : R),
    StimuliSet.params_from_idx (PlaidsSet.params p) idx
    = inr [VLoc x y; VNum size; VNum sf; VNum o; VNum ph; VNum gm; VNum cp;
           VNum co]
    /\ In (x, y) (PlaidsSet.locations p) /\ In size (PlaidsSet.sizes p)
    /\ In sf (PlaidsSet.spatial_frequencies p)
    /\ In o (PlaidsSet.orientations p) /\ In ph (PlaidsSet.phases p)
    /\ In gm (PlaidsSet.gammas p) /\ In cp (PlaidsSet.contrasts_preferred p)
    /\ In co (PlaidsSet.contrasts_orthogonal p).
Proof.
  intros Hidx.
  destruct (params_from_idx_member (PlaidsSet.params p) idx Hidx)
    as (vals & Hv & HF).
  unfold PlaidsSet.params in HF. split_Forall2. cbn [fst] in *.
  repeat match goal with
         | H : In _ (locs _) |- _ => apply In_locs in H as (? & ? & -> & H)
         | H : In _ (nums _) |- _ => apply In_nums in H as (? & -> & H)
         end.
  repeat eexists; try eassumption.
Qed.


Lemma CenterSurround_resolved (c : CenterSurround.t) (idx : Z) :
  (0 <= idx < num_stims (CS c))%Z ->
  exists (x y : Z) (st sc ss cc cs oc os sf pc ps : R),
    params_from_idx (CS c) idx
    = inr [VLoc x y; VNum st; VNum sc; VNum ss; VNum cc; VNum cs; VNum oc;
           VNum os; VNum sf; VNum pc; VNum ps]
    /\ In (x, y) (CenterSurround.locations c)
    /\ In st (CenterSurround.sizes_total c)
    /\ In sc (CenterSurround.sizes_center c)
    /\ In ss (CenterSurround.sizes_surround c)
    /\ In cc (CenterSurround.contrasts_center c)
    /\ In cs (CenterSurround.contrasts_surround c)
    /\ In oc (CenterSurround.orientations_center c)
    /\ In os (CenterSurround.orientations_surround c)
    /\ In sf (CenterSurround.spatial_frequencies c)
    /\ In pc (CenterSurround.phases_center c)
    /\ In ps (CenterSurround.phases_surround c).
Proof.
  intros Hidx. cbn [params_from_idx params].
  destruct (params_from_idx_member (CenterSurround.params c) idx Hidx)
    as (vals & Hv & HF).
  unfold CenterSurround.params in HF. split_Forall2. cbn [fst] in *.
  repeat match goal with
         | H : In _ (locs _) |- _ => apply In_locs in H as (? & ? & -> & H)
         | H : In _ (nums _) |- _ => apply In_nums in H as (? & -> & H)
         end.
  repeat eexists; try eassumption.
Qed.

End Dispatch.

(** ** The index-to-assignment map of each class *)

Section IndexToAssignmentOfClass.

Open Scope Z_scope.







End IndexToAssignmentOfClass.

Section DispatchFormulas.

Open Scope R_scope.

Lemma stimulus_from_idx_of_params (s : synth) (idx : Z) (vals : list value) :
  params_from_idx s idx = inr vals ->
  stimulus_from_idx s idx = stimulus s (combine (map snd (params s)) vals).
Proof.
  intros H. unfold stimulus_from_idx.
  rewrite (params_dict_from_idx_eq s idx vals H). reflexivity.
Qed.

Lemma stimulus_from_idx_raises (s : synth) (idx : Z) (e : exn) :
  params_from_idx s idx = inl e -> stimulus_from_idx s idx = inl e.
Proof.
  intros H. unfold stimulus_from_idx, params_dict_from_idx. rewrite H.
  reflexivity.
Qed.

(** The spatial frequency a Gabor or plaid formula receives. *)
Lemma GaborSet_stimulus_from_idx (g : GaborSet.t) (idx : Z) :
  (0 <= idx < num_stims (Gabor g))%Z ->
  exists (x y : Z) (size sf c o ph gm : R),
    In (x, y) (GaborSet.locations g) /\ In size (GaborSet.sizes g)
    /\ In sf (GaborSet.spatial_frequencies g) /\ In c (GaborSet.contrasts g)
    /\ In o (GaborSet.orientations g) /\ In ph (GaborSet.phases g)
    /\ In gm (GaborSet.gammas g)
    /\ stimulus_from_idx (Gabor g) idx
       = if GaborSet.relative_sf g
         then if Req_dec_T size 0 then inl ZeroDivisionError
              else inr (GaborSet.stimulus (GaborSet.disp g) (x, y) size
                                          (sf / size) c o ph gm)
         else inr (GaborSet.stimulus (GaborSet.disp g) (x, y) size sf c o ph gm).
Proof.
  intros Hidx.
  destruct (GaborSet_resolved g idx Hidx)
    as (x & y & size & sf & c & o & ph & gm & Hv & H).
  exists x, y, size, sf, c, o, ph, gm.
  repeat (split; [apply H |]).
  assert (Hp : params_from_idx (Gabor g) idx
               = GaborSet.rescale_sf (GaborSet.relative_sf g)
                   [VLoc x y; VNum size; VNum sf; VNum c; VNum o; VNum ph;
                    VNum gm]).
  { cbn [params_from_idx].
    unfold GaborSet.params_from_idx, GaborSet.params_from_idx_on.
    rewrite Hv. reflexivity. }
  unfold GaborSet.rescale_sf in Hp.
  destruct (GaborSet.relative_sf g);
    [destruct (Req_dec_T size 0) |].
  - apply stimulus_from_idx_raises. exact Hp.
  - rewrite (stimulus_from_idx_of_params _ _ _ Hp). reflexivity.
  - rewrite (stimulus_from_idx_of_params _ _ _ Hp). reflexivity.
Qed.

Lemma PlaidsSet_stimulus_from_idx (p : PlaidsSet.t) (idx : Z) :
  (0 <= idx < num_stims (Plaids p))%Z ->
  exists (x y : Z) (size sf o ph gm cp co : R),
    In (x, y) (PlaidsSet.locations p) /\ In size (PlaidsSet.sizes p)
    /\ In sf (PlaidsSet.spatial_frequencies p)
    /\ In o (PlaidsSet.orientations p) /\ In ph (PlaidsSet.phases p)
    /\ In gm (PlaidsSet.gammas p) /\ In cp (PlaidsSet.contrasts_preferred p)
    /\ In co (PlaidsSet.contrasts_orthogonal p)
    /\ stimulus_from_idx (Plaids p) idx
       = if PlaidsSet.relative_sf p
         then if Req_dec_T size 0 then inl ZeroDivisionError
              else inr (PlaidsSet.stimulus (PlaidsSet.disp p) (x, y) size
                                           (sf / size) o ph gm cp co)
         else inr (PlaidsSet.stimulus (PlaidsSet.disp p) (x, y) size sf o ph
                                      gm cp co).
Proof.
  intros Hidx.
  destruct (PlaidsSet_resolved p idx Hidx)
    as (x & y & size & sf & o & ph & gm & cp & co & Hv & H).
  exists x, y, size, sf, o, ph, gm, cp, co.
  repeat (split; [apply H |]).
  assert (Hp : params_from_idx (Plaids p) idx
               = GaborSet.rescale_sf (PlaidsSet.relative_sf p)
                   [VLoc x y; VNum size; VNum sf; VNum o; VNum ph; VNum gm;
                    VNum cp; VNum co]).
  { cbn [params_from_idx].
    unfold PlaidsSet.params_from_idx, GaborSet.params_from_idx_on.
    rewrite Hv. reflexivity. }
  unfold GaborSet.rescale_sf in Hp.
  destruct (PlaidsSet.relative_sf p);
    [destruct (Req_dec_T size 0) |].
  - apply stimulus_from_idx_raises. exact Hp.
  - rewrite (stimulus_from_idx_of_params _ _ _ Hp). reflexivity.
  - rewrite (stimulus_from_idx_of_params _ _ _ Hp). reflexivity.
Qed.


Lemma CenterSurround_stimulus_from_idx (c : CenterSurround.t) (idx : Z) :
  (0 <= idx < num_stims (CS c))%Z ->
  exists (x y : Z) (st sc ss cc cs oc os sf pc ps : R),
    In (x, y) (CenterSurround.locations c)
    /\ In st (CenterSurround.sizes_total c)
    /\ In sc (CenterSurround.sizes_center c)
    /\ In ss (CenterSurround.sizes_surround c)
    /\ In cc (CenterSurround.contrasts_center c)
    /\ In cs (CenterSurround.contrasts_surround c)
    /\ In oc (CenterSurround.orientations_center c)
    /\ In os (CenterSurround.orientations_surround c)
    /\ In sf (CenterSurround.spatial_frequencies c)
    /\ In pc (CenterSurround.phases_center c)
    /\ In ps (CenterSurround.phases_surround c)
    /\ stimulus_from_idx (CS c) idx
       = CenterSurround.stimulus (CenterSurround.disp c) (x, y) st sc ss cc cs
                                 oc os sf pc ps.
Proof.
  intros Hidx.
  destruct (CenterSurround_resolved c idx Hidx)
    as (x & y & st & sc & ss & cc & cs & oc & os & sf & pc & ps & Hv & H).
  exists x, y, st, sc, ss, cc, cs, oc, os, sf, pc, ps.
  repeat (split; [apply H |]).
  rewrite (stimulus_from_idx_of_params _ _ _ Hv). reflexivity.
Qed.

End DispatchFormulas.

(** ** The full sweep *)

Section Sweep.

Open Scope Z_scope.

Lemma range_cons (a b : Z) : a < b -> Np.range a b = a :: Np.range (a + 1) b.
Proof.
  intros H. rewrite <- (range_app a (a + 1) b) by lia.
  unfold Np.range at 1. replace (a + 1 - a) with 1 by lia.
  change (Z.to_nat 1) with 1%nat. cbn [seq map app Z.of_nat].
  rewrite Z.add_0_r. reflexivity.
Qed.

Lemma range_empty (a b : Z) : b <= a -> Np.range a b = [].
Proof.
  intros H. unfold Np.range. replace (Z.to_nat (b - a)) with 0%nat by lia.
  reflexivity.
Qed.

Lemma mapM_returns_inv {A B} (f : A -> result B) (l : list A) :
  returns (mapM f l) -> forall a, In a l -> returns (f a).
Proof.
  induction l as [| x l IH]; intros [bs H] a Ha; [contradiction |].
  cbn [mapM] in H. apply bind_inr in H as (b & Hb & H).
  apply bind_inr in H as (bs' & Hbs & _).
  destruct Ha as [<- | Ha].
  - exists b. exact Hb.
  - apply IH; [exists bs'; exact Hbs | exact Ha].
Qed.

Lemma mapM_nth_error {A B} (f : A -> result B) (l : list A) (bs : list B)
    (i : nat) (a : A) :
  mapM f l = inr bs -> nth_error l i = Some a ->
  exists b : B, nth_error bs i = Some b /\ f a = inr b.
Proof.
  revert bs i. induction l as [| x l IH]; intros bs i H Hi.
  - destruct i; discriminate.
  - cbn [mapM] in H. apply bind_inr in H as (b & Hb & H).
    apply bind_inr in H as (bs' & Hbs & H). injection H as <-.
    destruct i as [| i].
    + cbn in Hi. injection Hi as <-. exists b. split; [reflexivity | exact Hb].
    + cbn [nth_error] in Hi |- *. eapply IH; eassumption.
Qed.

(** A sweep over an index range raises exactly the exception of the first
    index that raises. *)
Lemma mapM_range_error {B} (f : Z -> result B) (n : nat) (a b : Z) (e : exn) :
  Z.to_nat (b - a) = n ->
  (mapM f (Np.range a b) = inl e
   <-> exists k : Z,
         a <= k < b /\ f k = inl e
         /\ forall k' : Z, a <= k' < k -> returns (f k')).
Proof.
  revert a. induction n as [| n IH]; intros a Hn.
  - rewrite range_empty by lia. cbn. split; [discriminate |].
    intros (k & Hk & _). lia.
  - rewrite range_cons by lia. cbn [mapM].
    specialize (IH (a + 1) ltac:(lia)).
    destruct (f a) as [e0 | b0] eqn:Ea; cbn [bind].
    + split.
      * intros H. injection H as <-. exists a.
        split; [lia |]. split; [exact Ea |]. intros k' Hk'. lia.
      * intros (k & Hk & He & Hbefore).
        destruct (Z.eq_dec k a) as [-> | Hne]; [congruence |].
        destruct (Hbefore a ltac:(lia)) as [b0 Hb0]. congruence.
    + destruct (mapM f (Np.range (a + 1) b)) as [e1 | bs] eqn:Er; cbn [bind ret].
      * split.
        -- intros H. injection H as <-.
           destruct (proj1 IH eq_refl) as (k & Hk & He & Hbefore).
           exists k. split; [lia |]. split; [exact He |].
           intros k' Hk'. destruct (Z.eq_dec k' a) as [-> | Hne].
           ++ exists b0. exact Ea.
           ++ apply Hbefore. lia.
        -- intros (k & Hk & He & Hbefore). f_equal.
           assert (Hr : @inl exn (list B) e1 = inl e); [| congruence].
           apply IH. exists k.
           split; [| split; [exact He | intros k' Hk'; apply Hbefore; lia]].
           destruct (Z.eq_dec k a) as [-> | Hne]; [congruence | lia].
      * split; [discriminate |].
        intros (k & Hk & He & Hbefore). exfalso.
        assert (Hr : @inr exn (list B) bs = inl e); [| discriminate].
        apply IH. exists k.
        split; [| split; [exact He | intros k' Hk'; apply Hbefore; lia]].
        destruct (Z.eq_dec k a) as [-> | Hne]; [congruence | lia].
Qed.

Lemma images_is_raise_of_stimulus (s : synth) (e : exn) :
  images s = inl e ->
  exists idx : Z, 0 <= idx < num_stims s /\ stimulus_from_idx s idx = inl e.
Proof.
  intros H. unfold images in H.
  apply (mapM_range_error _ (Z.to_nat (num_stims s - 0)) 0 (num_stims s) e
           eq_refl) in H.
  destruct H as (idx & Hidx & He & _). exists idx. split; assumption.
Qed.

(** X6.  When [images] returns, it returns one image per combination, in
    index order: entry [idx] is the image [stimulus_from_idx(idx)] returns,
    there are [totalCombinations] entries and each has the canvas shape
    (height, width).  When [images] raises, the exception is that of the
    smallest index whose stimulus raises, and conversely. *)
Theorem images_is_the_sweep (s : synth) :
  (forall imgs : list image,
      images s = inr imgs ->
      List.length imgs = Z.to_nat (num_stims s)
      /\ (forall idx : Z,
             0 <= idx < num_stims s ->
             exists img : image,
               nth_error imgs (Z.to_nat idx) = Some img
               /\ stimulus_from_idx s idx = inr img)
      /\ Forall (arr_shape (snd (canvas_size (disp s)))
                           (fst (canvas_size (disp s)))) imgs)
  /\ (forall e : exn,
         images s = inl e
         <-> exists idx : Z,
               0 <= idx < num_stims s
               /\ stimulus_from_idx s idx = inl e
               /\ forall idx' : Z,
                    0 <= idx' < idx -> returns (stimulus_from_idx s idx')).
Proof.
  split.
  - intros imgs H. unfold images in H. split; [| split].
    + rewrite (mapM_length _ _ _ H), range_length. f_equal. lia.
    + intros idx Hidx.
      apply (mapM_nth_error _ _ _ (Z.to_nat idx) idx H).
      rewrite range_nth_error.
      destruct (Nat.ltb_spec (Z.to_nat idx) (Z.to_nat (num_stims s - 0)));
        [f_equal; lia | lia].
    + eapply mapM_Forall; [| exact H].
      intros idx img _ Hst. unfold stimulus_from_idx in Hst.
      apply bind_inr in Hst as (kw & _ & Hst).
      eapply stimulus_shape. exact Hst.
  - intros e. unfold images.
    apply (mapM_range_error _ (Z.to_nat (num_stims s - 0))). reflexivity.
Qed.

End Sweep.

(** ** Which sweeps return *)

Section SweepOutcome.

Open Scope R_scope.

Lemma locs_In (x y : Z) (l : list (Z * Z)) : In (x, y) l -> In (VLoc x y) (locs l).
Proof.
  intros H. unfold locs.
  apply (in_map (fun p => VLoc (fst p) (snd p)) _ (x, y)). exact H.
Qed.

Lemma nums_In (r : R) (l : list R) : In r l -> In (VNum r) (nums l).
Proof. intros H. unfold nums. apply in_map. exact H. Qed.

Lemma images_returns_iff (s : synth) :
  returns (images s)
  <-> forall idx : Z,
        (0 <= idx < num_stims s)%Z -> returns (stimulus_from_idx s idx).
Proof.
  unfold images. split.
  - intros H idx Hidx. eapply mapM_returns_inv; [exact H |].
    apply range_In. exact Hidx.
  - intros H. apply mapM_returns. intros idx Hidx. apply H.
    apply range_In. exact Hidx.
Qed.

(** X7.  GaborSet's [params_from_idx] (inherited by PlaidsSet) resolves an
    index in range like the base method and then, when [relative_sf] is set,
    replaces the spatial frequency by spatial frequency / size, leaving the
    other entries alone; a resolved size of 0 raises ZeroDivisionError.
    With [relative_sf] unset it returns what the base method returns. *)
Theorem relative_sf_rescales_spatial_frequency (idx : Z) :
  (forall g : GaborSet.t,
      (0 <= idx < num_stims (Gabor g))%Z ->
      exists (loc : value) (size sf : R) (rest : list value),
        StimuliSet.params_from_idx (params (Gabor g)) idx
        = inr (loc :: VNum size :: VNum sf :: rest)
        /\ In size (GaborSet.sizes g)
        /\ In sf (GaborSet.spatial_frequencies g)
        /\ params_from_idx (Gabor g) idx
           = if GaborSet.relative_sf g
             then if Req_dec_T size 0 then inl ZeroDivisionError
                  else inr (loc :: VNum size :: VNum (sf / size) :: rest)
             else inr (loc :: VNum size :: VNum sf :: rest))
  /\ (forall p : PlaidsSet.t,
         (0 <= idx < num_stims (Plaids p))%Z ->
         exists (loc : value) (size sf : R) (rest : list value),
           StimuliSet.params_from_idx (params (Plaids p)) idx
           = inr (loc :: VNum size :: VNum sf :: rest)
           /\ In size (PlaidsSet.sizes p)
           /\ In sf (PlaidsSet.spatial_frequencies p)
           /\ params_from_idx (Plaids p) idx
              = if PlaidsSet.relative_sf p
                then if Req_dec_T size 0 then inl ZeroDivisionError
                     else inr (loc :: VNum size :: VNum (sf / size) :: rest)
                else inr (loc :: VNum size :: VNum sf :: rest)).
Proof.
  split.
  - intros g Hidx.
    destruct (GaborSet_resolved g idx Hidx)
      as (x & y & size & sf & c & o & ph & gm & Hv & _ & Hsz & Hsf & _).
    exists (VLoc x y), size, sf, [VNum c; VNum o; VNum ph; VNum gm].
    cbn [params]. split; [exact Hv |]. split; [exact Hsz |].
    split; [exact Hsf |]. cbn [params_from_idx].
    unfold GaborSet.params_from_idx, GaborSet.params_from_idx_on.
    rewrite Hv. cbn [bind GaborSet.rescale_sf].
    destruct (GaborSet.relative_sf g); reflexivity.
  - intros p Hidx.
    destruct (PlaidsSet_resolved p idx Hidx)
      as (x & y & size & sf & o & ph & gm & cp & co & Hv & _ & Hsz & Hsf & _).
    exists (VLoc x y), size, sf, [VNum o; VNum ph; VNum gm; VNum cp; VNum co].
    cbn [params]. split; [exact Hv |]. split; [exact Hsz |].
    split; [exact Hsf |]. cbn [params_from_idx].
    unfold PlaidsSet.params_from_idx, GaborSet.params_from_idx_on.
    rewrite Hv. cbn [bind GaborSet.rescale_sf].
    destruct (PlaidsSet.relative_sf p); reflexivity.
Qed.


End SweepOutcome.

Section SweepValidation.

Open Scope R_scope.



Lemma CenterSurround_domain_error (d : display) (location : Z * Z)
    (st sc ss cc cs oc os sf pc ps : R) :
  sc > ss ->
  CenterSurround.stimulus d location st sc ss cc cs oc os sf pc ps
  = inl CenterSurround.domain_error.
Proof.
  intros H. unfold CenterSurround.stimulus.
  destruct (Rgt_dec sc ss); [reflexivity | contradiction].
Qed.



(** X10.  On a non-empty parameter space the center-surround sweep [images]
    returns exactly when every configured center fraction is at most every
    configured surround fraction, since each center size is paired with
    each surround size; otherwise it raises the domain error, whatever the
    canvas. *)
Theorem CenterSurround_sweep_returns_iff (c : CenterSurround.t) :
  (0 < num_stims (CS c))%Z ->
  (returns (images (CS c))
   <-> forall sc ss : R,
         In sc (CenterSurround.sizes_center c) ->
         In ss (CenterSurround.sizes_surround c) -> sc <= ss)
  /\ (forall e : exn,
         images (CS c) = inl e -> e = CenterSurround.domain_error).
Proof.
  intros Hpos. split.
  - rewrite images_returns_iff. split.
    + intros Hall sc ss Hsc Hss.
      destruct (CenterSurround_resolved c 0%Z ltac:(lia))
        as (x & y & st & sc0 & ss0 & cc & cs & oc & os & sf & pc & ps & _ & Hl
            & Hst & _ & _ & Hcc & Hcs & Hoc & Hos & Hsf & Hpc & Hps).
      destruct (params_from_idx_reaches (CenterSurround.params c)
                  [VLoc x y; VNum st; VNum sc; VNum ss; VNum cc; VNum cs;
                   VNum oc; VNum os; VNum sf; VNum pc; VNum ps])
        as (idx & Hidx & Hv).
      { unfold CenterSurround.params.
        repeat constructor; cbn [fst]; auto using locs_In, nums_In. }
      destruct (Hall idx Hidx) as [img Himg].
      rewrite (stimulus_from_idx_of_params (CS c) idx _ Hv) in Himg.
      change (CenterSurround.stimulus (CenterSurround.disp c) (x, y) st sc ss
                cc cs oc os sf pc ps = inr img) in Himg.
      destruct (Rle_dec sc ss) as [Hle | Hgt]; [exact Hle |].
      rewrite CenterSurround_domain_error in Himg by lra. discriminate.
    + intros Hall idx Hidx.
      destruct (CenterSurround_stimulus_from_idx c idx Hidx)
        as (x & y & st & sc & ss & cc & cs & oc & os & sf & pc & ps & _ & _
            & Hsc & Hss & _ & _ & _ & _ & _ & _ & _ & Hst).
      rewrite Hst. apply CenterSurround_returns. apply Hall; assumption.
  - intros e H. apply images_is_raise_of_stimulus in H.
    destruct H as (idx & Hidx & He).
    destruct (CenterSurround_stimulus_from_idx c idx Hidx)
      as (x & y & st & sc & ss & cc & cs & oc & os & sf & pc & ps & _ & _
          & _ & _ & _ & _ & _ & _ & _ & _ & _ & Hst).
    rewrite Hst in He. unfold CenterSurround.stimulus in He.
    destruct (Rgt_dec sc ss); [congruence | discriminate].
Qed.

Lemma CenterSurround_sweep_returns_iff_witness :
  returns (images (CS center_surround_sample)).
Proof.
  apply (CenterSurround_sweep_returns_iff center_surround_sample).
  - reflexivity.
  - intros sc ss [<- | []] [<- | []]. lra.
Defined.

End SweepValidation.

(** ** The Gabor and plaid formulas *)

Section GaborFormula.

Open Scope R_scope.

(** X11.  A Gabor stimulus with contrast 0 and a non-zero size is the grey
    level at every pixel of the canvas. *)
Theorem Gabor_zero_contrast_is_grey (d : display) (location : Z * Z)
    (size sf theta phase gamma : R) (i j : nat) :
  size <> 0 ->
  pixel (GaborSet.stimulus d location size sf 0 theta phase gamma) i j
  = if on_canvas d i j then Some (grey_level d) else None.
Proof.
  intros _. rewrite GaborSet_stimulus_pixel.
  destruct (on_canvas d i j); [| reflexivity].
  f_equal. unfold amplitude_of. ring.
Qed.

Lemma Gabor_zero_contrast_is_grey_witness :
  pixel (GaborSet.stimulus (Display (3, 3)%nat (1 / 2) (-1, 1)) (1, 1)%Z
                           4 1 0 0 0 1) 2 0
  = Some (1 / 2).
Proof.
  apply (Gabor_zero_contrast_is_grey (Display (3, 3)%nat (1 / 2) (-1, 1))
           (1, 1)%Z 4 1 0 0 1 2 0).
  lra.
Defined.

Lemma px_at_location (x y : Z) (theta : R) :
  (0 <= x)%Z -> (0 <= y)%Z ->
  px_x (x, y) theta (Z.to_nat x) (Z.to_nat y) = 0
  /\ px_y (x, y) theta (Z.to_nat x) (Z.to_nat y) = 0.
Proof.
  intros Hx Hy. unfold px_x, px_y. cbn [fst snd].
  rewrite !Z2Nat.id by assumption. rewrite !Z.sub_diag. split; ring.
Qed.

(** X12.  When the location is a pixel of the canvas, the Gabor stimulus at
    that pixel is [amplitude * cos(phase) + grey_level], whatever the
    orientation, spatial frequency, aspect ratio and (non-zero) size: the
    envelope is 1 there. *)
Theorem Gabor_value_at_location (d : display) (x y : Z)
    (size sf contrast theta phase gamma : R) :
  (0 <= x < Z.of_nat (fst (canvas_size d)))%Z ->
  (0 <= y < Z.of_nat (snd (canvas_size d)))%Z ->
  size <> 0 ->
  pixel (GaborSet.stimulus d (x, y) size sf contrast theta phase gamma)
        (Z.to_nat x) (Z.to_nat y)
  = Some (amplitude_of d contrast * cos phase + grey_level d).
Proof.
  intros Hx Hy Hs. rewrite GaborSet_stimulus_pixel.
  unfold on_canvas.
  destruct (Nat.ltb_spec (Z.to_nat x) (fst (canvas_size d))); [| lia].
  destruct (Nat.ltb_spec (Z.to_nat y) (snd (canvas_size d))); [| lia].
  cbn [andb]. f_equal.
  destruct (px_at_location x y theta) as [Hx0 Hy0]; [lia | lia |].
  unfold px_gabor_no_contrast, px_envelope, px_grating. rewrite Hx0, Hy0.
  replace (- (0 ^ 2 + gamma * 0 ^ 2) / (2 * (size / 4) ^ 2)) with 0
    by (unfold Rdiv; ring).
  rewrite exp_0. replace (sf * 0 * (2 * PI) + phase) with phase by ring.
  ring.
Qed.

Lemma Gabor_value_at_location_witness :
  pixel (GaborSet.stimulus (Display (9, 9)%nat 0 (-1, 1)) (4, 4)%Z
                           4 (1 / 10) 1 0 0 1) 4 4
  = Some (amplitude_of (Display (9, 9)%nat 0 (-1, 1)) 1 * cos 0 + 0).
Proof.
  apply (Gabor_value_at_location (Display (9, 9)%nat 0 (-1, 1)) 4 4
           4 (1 / 10) 1 0 0 1).
  - cbn. lia.
  - cbn. lia.
  - lra.
Defined.

(** X13.  Turning the orientation by pi and negating the phase leaves every
    pixel of the Gabor stimulus unchanged; in particular, with phase 0,
    orientations outside [0, pi) repeat those inside. *)
Theorem Gabor_half_turn (d : display) (location : Z * Z)
    (size sf contrast theta phase gamma : R) (i j : nat) :
  pixel (GaborSet.stimulus d location size sf contrast (theta + PI) (- phase)
                           gamma) i j
  = pixel (GaborSet.stimulus d location size sf contrast theta phase gamma) i j.
Proof.
  rewrite !GaborSet_stimulus_pixel.
  destruct (on_canvas d i j); [| reflexivity].
  f_equal. f_equal. f_equal.
  assert (Hx : px_x location (theta + PI) i j = - px_x location theta i j).
  { unfold px_x. rewrite neg_cos, neg_sin. ring. }
  assert (Hy : px_y location (theta + PI) i j = - px_y location theta i j).
  { unfold px_y. rewrite neg_cos, neg_sin. ring. }
  unfold px_gabor_no_contrast, px_envelope, px_grating. rewrite Hx, Hy.
  f_equal.
  - f_equal. f_equal. f_equal. ring.
  - rewrite <- (cos_neg (sf * px_x location theta i j * (2 * PI) + phase)).
    f_equal. ring.
Qed.

(** X14.  With a non-negative aspect ratio and a non-zero size, a plaid
    pixel differs from twice the grey level by at most the sum of the two
    amplitudes, [(contrast_preferred + contrast_orthogonal) *
    min(|low - grey|, |high - grey|)] for non-negative contrasts. *)
Theorem Plaid_deviation_bound (d : display) (location : Z * Z)
    (size sf theta phase gamma cp co : R) (i j : nat) (v : R) :
  0 <= gamma -> size <> 0 -> 0 <= cp -> 0 <= co ->
  pixel (PlaidsSet.stimulus d location size sf theta phase gamma cp co) i j
    = Some v ->
  Rabs (v - 2 * grey_level d)
  <= (cp + co) * Rmin (Rabs (fst (pixel_boundaries d) - grey_level d))
                      (Rabs (snd (pixel_boundaries d) - grey_level d)).
Proof.
  intros Hg Hs Hcp Hco Hpx. rewrite PlaidsSet_stimulus_pixel in Hpx.
  destruct (on_canvas d i j); [| discriminate]. injection Hpx as <-.
  pose proof (px_gabor_no_contrast_bound location size sf theta phase gamma
                i j Hg Hs) as Hp.
  pose proof (px_gabor_no_contrast_bound location size sf (theta + PI / 2)
                phase gamma i j Hg Hs) as Ho.
  unfold amplitude_of.
  set (m := Rmin (Rabs (fst (pixel_boundaries d) - grey_level d))
                 (Rabs (snd (pixel_boundaries d) - grey_level d))).
  assert (Hm : 0 <= m) by (apply Rmin_glb; apply Rabs_pos).
  set (a := px_gabor_no_contrast location size sf theta phase gamma i j) in *.
  set (b := px_gabor_no_contrast location size sf (theta + PI / 2) phase gamma
                                 i j) in *.
  assert (Hcm : 0 <= cp * m) by (apply Rmult_le_pos; assumption).
  assert (Hom : 0 <= co * m) by (apply Rmult_le_pos; assumption).
  apply Rabs_le. split; nra.
Qed.

Lemma Plaid_deviation_bound_witness :
  exists v : R,
    pixel (PlaidsSet.stimulus (Display (3, 3)%nat 0 (-1, 1)) (1, 1)%Z
                              4 1 0 0 1 1 (1 / 2)) 0 0 = Some v
    /\ Rabs (v - 2 * 0) <= (1 + 1 / 2) * Rmin (Rabs (-1 - 0)) (Rabs (1 - 0)).
Proof.
  eexists. split.
  - rewrite PlaidsSet_stimulus_pixel. reflexivity.
  - apply (Plaid_deviation_bound (Display (3, 3)%nat 0 (-1, 1)) (1, 1)%Z
             4 1 0 0 1 1 (1 / 2) 0 0); try lra.
    rewrite PlaidsSet_stimulus_pixel. reflexivity.
Defined.

End GaborFormula.

(** ** The difference-of-Gaussians formula *)

Section DoGFormula.

Open Scope R_scope.

Lemma fold_left_Rmin_spec (vs : list R) (v0 : R) :
  In (fold_left Rmin vs v0) (v0 :: vs)
  /\ forall x : R, In x (v0 :: vs) -> fold_left Rmin vs v0 <= x.
Proof.
  revert v0. induction vs as [| a vs IH]; intros v0; cbn [fold_left].
  - split; [left; reflexivity |]. intros x [<- | []]. apply Rle_refl.
  - destruct (IH (Rmin v0 a)) as [Hin Hle]. split.
    + destruct Hin as [E | Hin]; [| right; right; exact Hin].
      rewrite <- E. unfold Rmin. destruct (Rle_dec v0 a);
        [left | right; left]; reflexivity.
    + intros x Hx.
      assert (H0 : fold_left Rmin vs (Rmin v0 a) <= Rmin v0 a)
        by (apply Hle; left; reflexivity).
      destruct Hx as [<- | [<- | Hx]].
      * pose proof (Rmin_l v0 a). lra.
      * pose proof (Rmin_r v0 a). lra.
      * apply Hle. right. exact Hx.
Qed.

Lemma fold_left_Rmax_spec (vs : list R) (v0 : R) :
  In (fold_left Rmax vs v0) (v0 :: vs)
  /\ forall x : R, In x (v0 :: vs) -> x <= fold_left Rmax vs v0.
Proof.
  revert v0. induction vs as [| a vs IH]; intros v0; cbn [fold_left].
  - split; [left; reflexivity |]. intros x [<- | []]. apply Rle_refl.
  - destruct (IH (Rmax v0 a)) as [Hin Hle]. split.
    + destruct Hin as [E | Hin]; [| right; right; exact Hin].
      rewrite <- E. unfold Rmax. destruct (Rle_dec v0 a);
        [right; left | left]; reflexivity.
    + intros x Hx.
      assert (H0 : Rmax v0 a <= fold_left Rmax vs (Rmax v0 a))
        by (apply Hle; left; reflexivity).
      destruct Hx as [<- | [<- | Hx]].
      * pose proof (Rmax_l v0 a). lra.
      * pose proof (Rmax_r v0 a). lra.
      * apply Hle. right. exact Hx.
Qed.

Lemma pixel_In_concat {A} (a : array A) (i j : nat) (r : A) :
  pixel a i j = Some r -> In r (List.concat a).
Proof.
  unfold pixel. destruct (nth_error a j) as [row |] eqn:E; [| discriminate].
  intros H. apply in_concat. exists row.
  split; eapply nth_error_In; eassumption.
Qed.

Lemma In_concat_pixel {A} (a : array A) (r : A) :
  In r (List.concat a) -> exists i j : nat, pixel a i j = Some r.
Proof.
  intros H. apply in_concat in H as (row & Hrow & Hr).
  apply In_nth_error in Hrow as [j Hj]. apply In_nth_error in Hr as [i Hi].
  exists i, j. unfold pixel. rewrite Hj. exact Hi.
Qed.

Lemma arr_min_spec (a : image) (mn : R) :
  arr_min a = inr mn ->
  In mn (List.concat a) /\ forall x : R, In x (List.concat a) -> mn <= x.
Proof.
  unfold arr_min. destruct (List.concat a) as [| v vs]; [discriminate |].
  intros H. injection H as <-. apply fold_left_Rmin_spec.
Qed.

Lemma arr_max_spec (a : image) (mx : R) :
  arr_max a = inr mx ->
  In mx (List.concat a) /\ forall x : R, In x (List.concat a) -> x <= mx.
Proof.
  unfold arr_max. destruct (List.concat a) as [| v vs]; [discriminate |].
  intros H. injection H as <-. apply fold_left_Rmax_spec.
Qed.

(** The stimulus is the raw field rescaled and shifted. *)
Lemma DiffOfGaussians_stimulus_factors (d : display) (location : Z * Z)
    (size sss contrast csc : R) (img : image) :
  DiffOfGaussians.stimulus d location size sss contrast csc = inr img ->
  exists (raw : image) (mn mx : R),
    center_surround d location size sss csc = inr raw
    /\ arr_min raw = inr mn /\ arr_max raw = inr mx
    /\ img = arr_map (fun v => amplitude_of d contrast
                               / Rmax (Rabs mn) (Rabs mx) * v
                               + grey_level d) raw.
Proof.
  unfold DiffOfGaussians.stimulus, center_surround.
  destruct (Rle_dec sss 1); [discriminate |].
  destruct (meshgrid _ _) as [x y]. intros H.
  apply bind_inr in H as (center & Hc & H).
  apply bind_inr in H as (surround & Hs & H).
  apply bind_inr in H as (mn & Hmn & H).
  apply bind_inr in H as (mx & Hmx & H).
  injection H as <-. rewrite Hc, Hs. cbn [bind ret].
  eexists. exists mn, mx. repeat split; try eassumption; reflexivity.
Qed.

(** X15.  In exact real arithmetic and for a non-zero size: when
    [DiffOfGaussians.stimulus] returns and the raw field
    [center - contrast_scale_surround * surround] is not zero everywhere,
    every pixel of the result differs from the grey level by at most
    [|contrast * min(|low - grey|, |high - grey|)|], and some pixel differs
    by exactly that much: the requested contrast is reached and never
    exceeded.  With the grey level inside the pixel boundaries and contrast
    in [0, 1], every pixel lies within the boundaries. *)
Theorem DiffOfGaussians_contrast_is_honoured (d : display) (location : Z * Z)
    (size sss contrast csc : R) (img : image) :
  size <> 0 ->
  DiffOfGaussians.stimulus d location size sss contrast csc = inr img ->
  exists raw : image,
    center_surround d location size sss csc = inr raw
    /\ ((exists (i j : nat) (r : R), pixel raw i j = Some r /\ r <> 0) ->
        (forall (i j : nat) (v : R),
            pixel img i j = Some v ->
            Rabs (v - grey_level d) <= Rabs (amplitude_of d contrast))
        /\ (exists (i j : nat) (v : R),
               pixel img i j = Some v
               /\ Rabs (v - grey_level d) = Rabs (amplitude_of d contrast))
        /\ (fst (pixel_boundaries d) <= grey_level d
              <= snd (pixel_boundaries d) ->
            0 <= contrast <= 1 ->
            forall (i j : nat) (v : R),
              pixel img i j = Some v ->
              fst (pixel_boundaries d) <= v <= snd (pixel_boundaries d))).
Proof.
  intros _ H.
  destruct (DiffOfGaussians_stimulus_factors _ _ _ _ _ _ _ H)
    as (raw & mn & mx & Hraw & Hmn & Hmx & ->).
  exists raw. split; [exact Hraw |]. intros (i0 & j0 & r0 & Hr0 & Hne).
  destruct (arr_min_spec raw mn Hmn) as [Hmn_in Hmn_le].
  destruct (arr_max_spec raw mx Hmx) as [Hmx_in Hmx_le].
  set (cur := Rmax (Rabs mn) (Rabs mx)).
  set (req := amplitude_of d contrast).
  assert (Hbound : forall r, In r (List.concat raw) -> Rabs r <= cur).
  { intros r Hr. specialize (Hmn_le r Hr). specialize (Hmx_le r Hr).
    subst cur. pose proof (Rmax_l (Rabs mn) (Rabs mx)).
    pose proof (Rmax_r (Rabs mn) (Rabs mx)).
    unfold Rabs in *. repeat destruct (Rcase_abs _); lra. }
  assert (Hcur : 0 < cur).
  { pose proof (Hbound r0 (pixel_In_concat raw i0 j0 r0 Hr0)).
    pose proof (Rabs_pos_lt r0 Hne). lra. }
  assert (Hdev : forall r, Rabs (req / cur * r + grey_level d - grey_level d)
                           = Rabs req * (Rabs r / cur)).
  { intros r. replace (req / cur * r + grey_level d - grey_level d)
      with (req * (r / cur)) by (field; lra).
    rewrite Rabs_mult. f_equal. unfold Rdiv. rewrite Rabs_mult.
    rewrite (Rabs_right (/ cur)); [reflexivity |].
    left. apply Rinv_0_lt_compat. exact Hcur. }
  assert (Hall : forall i j v,
             pixel (arr_map (fun v => req / cur * v + grey_level d) raw) i j
             = Some v ->
             Rabs (v - grey_level d) <= Rabs req).
  { intros i j v Hv. rewrite pixel_arr_map in Hv.
    destruct (pixel raw i j) as [r |] eqn:Er; [| discriminate].
    injection Hv as <-. rewrite Hdev.
    pose proof (Hbound r (pixel_In_concat raw i j r Er)) as Hr.
    pose proof (Rabs_pos req). pose proof (Rabs_pos r).
    assert (Rabs r / cur <= 1).
    { apply (Rmult_le_reg_r cur); [exact Hcur |].
      unfold Rdiv. rewrite Rmult_assoc, Rinv_l by lra. lra. }
    assert (0 <= Rabs r / cur).
    { apply Rmult_le_pos; [assumption |]. left.
      apply Rinv_0_lt_compat. exact Hcur. }
    nra. }
  split; [exact Hall |]. split.
  - assert (Hpeak : exists r, In r (List.concat raw) /\ Rabs r = cur).
    { subst cur. unfold Rmax. destruct (Rle_dec (Rabs mn) (Rabs mx));
        [exists mx | exists mn]; split; auto. }
    destruct Hpeak as (r & Hr & Er).
    destruct (In_concat_pixel raw r Hr) as (i & j & Hij).
    exists i, j, (req / cur * r + grey_level d). split.
    + rewrite pixel_arr_map, Hij. reflexivity.
    + rewrite Hdev, Er. unfold Rdiv. rewrite Rinv_r by lra. ring.
  - intros Hgrey Hc i j v Hv. specialize (Hall i j v Hv).
    destruct (amplitude_of_range d contrast Hgrey Hc) as (Ha0 & Halo & Hahi).
    fold req in Ha0, Halo, Hahi. rewrite (Rabs_right req) in Hall by lra.
    unfold Rabs in Hall. destruct (Rcase_abs (v - grey_level d)); lra.
Qed.

End DoGFormula.

Section DoGFormulaInstance.

Open Scope R_scope.

Lemma DiffOfGaussians_contrast_is_honoured_witness :
  exists img : image,
    DiffOfGaussians.stimulus (Display (1, 1)%nat 0 (-1, 1)) (0, 0)%Z 1 2 1 0
    = inr img
    /\ (forall (i j : nat) (v : R),
           pixel img i j = Some v ->
           Rabs (v - 0) <= Rabs (amplitude_of (Display (1, 1)%nat 0 (-1, 1)) 1))
    /\ (exists (i j : nat) (v : R),
           pixel img i j = Some v
           /\ Rabs (v - 0)
              = Rabs (amplitude_of (Display (1, 1)%nat 0 (-1, 1)) 1)).
Proof.
  destruct (DiffOfGaussians_returns 0 0 0 (-1, 1) (0, 0)%Z 1 2 1 0 ltac:(lra))
    as [img Himg].
  exists img. split; [exact Himg |].
  destruct (DiffOfGaussians_contrast_is_honoured
              (Display (1, 1)%nat 0 (-1, 1)) (0, 0)%Z 1 2 1 0 img
              ltac:(lra) Himg)
    as (raw & Hraw & Hbound).
  assert (Hnz : exists (i j : nat) (r : R), pixel raw i j = Some r /\ r <> 0).
  { injection Hraw as <-. exists 0%nat, 0%nat. eexists.
    split; [reflexivity |].
    rewrite Rmult_0_l, Rminus_0_r. apply Rgt_not_eq. apply exp_pos. }
  destruct (Hbound Hnz) as (Hall & Hpeak & _).
  split; [exact Hall | exact Hpeak].
Defined.

End DoGFormulaInstance.

(** ** Batch sizes at the extremes *)

Section BatchExtremes.

Open Scope Z_scope.

(** X18.  A negative batch size makes [image_batches] yield nothing; a
    batch size of at least [totalCombinations] (when there is at least one
    combination) yields a single batch, which is the whole sweep of
    [images]; batch size 1 yields one single-image batch per index, in
    index order. *)
Theorem image_batches_extreme_sizes (s : synth) (b : Z) :
  (b < 0 -> image_batches s b = [])
  /\ (1 <= num_stims s <= b -> image_batches s b = [images s])
  /\ image_batches s 1
     = map (fun idx => img <- stimulus_from_idx s idx ;; ret [img])
           (Np.range 0 (num_stims s)).
Proof.
  pose proof (num_stims_nonneg s) as Hn.
  split; [| split].
  - intros Hb. unfold image_batches, batch_ranges, Np.arange_step.
    destruct (Z.eqb_spec b 0) as [-> | _]; [lia |].
    assert (H0 : 0 <= (- num_stims s) / b).
    { rewrite <- Z.div_opp_opp by lia. rewrite Z.opp_involutive.
      apply Z.div_pos; lia. }
    replace (Z.to_nat (- (- num_stims s / b))) with 0%nat by lia.
    reflexivity.
  - intros Hb. unfold image_batches.
    rewrite batch_ranges_eq by lia.
    pose proof (batch_count_spec (num_stims s) b Hn ltac:(lia)) as Hm.
    cbv zeta in Hm.
    assert (E : batch_count (num_stims s) b = 1%nat) by nia.
    rewrite E. cbn [seq map fst snd]. change (Z.of_nat 0 * b) with 0.
    rewrite Z.add_0_l, Z.min_r by lia. reflexivity.
  - unfold image_batches. rewrite batch_ranges_eq by lia.
    unfold Np.range, batch_count. rewrite !map_map.
    replace (Z.to_nat (- (- num_stims s / 1))) with (Z.to_nat (num_stims s - 0)).
    + apply map_ext_in. intros k Hk. apply in_seq in Hk. cbn [fst snd].
      rewrite Z.min_l by lia.
      replace (Z.to_nat (Z.of_nat k * 1 + 1 - Z.of_nat k * 1)) with 1%nat by lia.
      cbn [seq map mapM]. rewrite Z.add_0_r, Z.mul_1_r, Z.add_0_l.
      reflexivity.
    + rewrite Z.div_1_r. f_equal. lia.
Qed.

Lemma image_batches_extreme_sizes_witness :
  image_batches (DoG dog_sample) 10 = [images (DoG dog_sample)].
Proof.
  apply (image_batches_extreme_sizes (DoG dog_sample) 10).
  change (num_stims (DoG dog_sample)) with 6. lia.
Defined.

End BatchExtremes.

(** ** A well-configured Gabor synthesizer *)

Section GaborEndToEnd.

Open Scope R_scope.

Lemma GaborSet_stimulus_bounded (d : display) (location : Z * Z)
    (size sf contrast theta phase gamma : R) (i j : nat) (v : R) :
  fst (pixel_boundaries d) <= grey_level d <= snd (pixel_boundaries d) ->
  0 <= contrast <= 1 -> 0 <= gamma -> size <> 0 ->
  pixel (GaborSet.stimulus d location size sf contrast theta phase gamma) i j
    = Some v ->
  fst (pixel_boundaries d) <= v <= snd (pixel_boundaries d).
Proof.
  intros Hgrey Hc Hg Hs Hpx. rewrite GaborSet_stimulus_pixel in Hpx.
  destruct (on_canvas d i j); [| discriminate]. injection Hpx as <-.
  pose proof (px_gabor_no_contrast_bound location size sf theta phase gamma
                i j Hg Hs) as Hb.
  destruct (amplitude_of_range d contrast Hgrey Hc) as (Ha0 & Halo & Hahi).
  split; nra.
Qed.

(** X19.  For a Gabor synthesizer whose grey level lies within its pixel
    boundaries, whose contrasts are in [0, 1], whose gammas are non-negative
    and whose sizes are non-zero, [stimulus_from_idx] returns for every index
    in range, with or without [relative_sf], and every pixel of the image
    lies within the pixel boundaries; so does the whole sweep [images]. *)
Theorem Gabor_sweep_within_boundaries (g : GaborSet.t) :
  let d := GaborSet.disp g in
  fst (pixel_boundaries d) <= grey_level d <= snd (pixel_boundaries d) ->
  Forall (fun c => 0 <= c <= 1) (GaborSet.contrasts g) ->
  Forall (fun gm => 0 <= gm) (GaborSet.gammas g) ->
  Forall (fun size => size <> 0) (GaborSet.sizes g) ->
  (forall idx : Z,
      (0 <= idx < num_stims (Gabor g))%Z ->
      exists img : image,
        stimulus_from_idx (Gabor g) idx = inr img
        /\ forall (i j : nat) (v : R),
             pixel img i j = Some v ->
             fst (pixel_boundaries d) <= v <= snd (pixel_boundaries d))
  /\ (exists imgs : list image,
         images (Gabor g) = inr imgs
         /\ List.length imgs = Z.to_nat (num_stims (Gabor g))
         /\ forall (img : image) (i j : nat) (v : R),
              In img imgs -> pixel img i j = Some v ->
              fst (pixel_boundaries d) <= v <= snd (pixel_boundaries d)).
Proof.
  intros d Hgrey Hc Hg Hs.
  rewrite Forall_forall in Hc, Hg, Hs.
  assert (Hone : forall idx : Z,
             (0 <= idx < num_stims (Gabor g))%Z ->
             exists img : image,
               stimulus_from_idx (Gabor g) idx = inr img
               /\ forall (i j : nat) (v : R),
                    pixel img i j = Some v ->
                    fst (pixel_boundaries d) <= v <= snd (pixel_boundaries d)).
  { intros idx Hidx.
    destruct (GaborSet_stimulus_from_idx g idx Hidx)
      as (x & y & size & sf & c & o & ph & gm & _ & Hsz & _ & Hcin & _ & _
          & Hgin & Hst).
    rewrite Hst. specialize (Hs size Hsz).
    specialize (Hc c Hcin). specialize (Hg gm Hgin).
    destruct (GaborSet.relative_sf g);
      [destruct (Req_dec_T size 0) as [E | _]; [contradiction |] |];
      eexists; (split; [reflexivity |]); intros i j v Hv;
      exact (GaborSet_stimulus_bounded _ _ _ _ _ _ _ _ _ _ _
               Hgrey Hc Hg Hs Hv). }
  split; [exact Hone |].
  destruct (proj2 (images_returns_iff (Gabor g))) as [imgs Himgs].
  { intros idx Hidx. destruct (Hone idx Hidx) as (img & Hi & _).
    exists img. exact Hi. }
  exists imgs. split; [exact Himgs |]. split.
  - unfold images in Himgs. rewrite (mapM_length _ _ _ Himgs), range_length.
    f_equal. lia.
  - intros img i j v Hin Hv. unfold images in Himgs.
    assert (HF : Forall (fun img => forall i j v,
                           pixel img i j = Some v ->
                           fst (pixel_boundaries d) <= v
                           <= snd (pixel_boundaries d)) imgs).
    { eapply mapM_Forall; [| exact Himgs].
      intros idx img' Hidx Hst. apply range_In in Hidx.
      destruct (Hone idx Hidx) as (img'' & Hi & Hb).
      assert (img'' = img') by congruence. subst img''. exact Hb. }
    rewrite Forall_forall in HF. eapply HF; eassumption.
Qed.

Lemma Gabor_sweep_within_boundaries_witness :
  exists imgs : list image,
    images (Gabor gabor_sample) = inr imgs
    /\ List.length imgs = Z.to_nat (num_stims (Gabor gabor_sample)).
Proof.
  assert (Hgrey : fst (pixel_boundaries (GaborSet.disp gabor_sample))
                  <= grey_level (GaborSet.disp gabor_sample)
                  <= snd (pixel_boundaries (GaborSet.disp gabor_sample)))
    by (cbn; lra).
  assert (Hc : Forall (fun c => 0 <= c <= 1) (GaborSet.contrasts gabor_sample))
    by (repeat constructor; lra).
  assert (Hg : Forall (fun gm => 0 <= gm) (GaborSet.gammas gabor_sample))
    by (repeat constructor; lra).
  assert (Hs : Forall (fun size => size <> 0) (GaborSet.sizes gabor_sample))
    by (repeat constructor; lra).
  destruct (Gabor_sweep_within_boundaries gabor_sample Hgrey Hc Hg Hs)
    as (_ & imgs & Himgs & Hlen & _).
  exists imgs. split; assumption.
Defined.

End GaborEndToEnd.

(** ** Keyword arguments *)

Section Keywords.













End Keywords.
